(** * Lesson Extractor ([app_file.py]): text extraction, prompt assembly and
    response parsing

    A shallow embedding of [process_file], [get_key_ideas] and the Home page
    handler of [app_file.py], with the Python built-ins they rest on
    ([str.replace], [str.strip], [bytes.decode], the two regular expressions)
    written out as functions over lists of code points. *)

From Stdlib Require Import ZArith String Ascii Bool Lia List.
From Stdlib Require Import Strings.Byte.
Import ListNotations.

Local Open Scope Z_scope.

(** ** Python values *)

(** A Python [str] is a sequence of Unicode code points; [bytes] is a sequence of
    octets. *)
Definition char := Z.
Definition str := list char.
Definition bytes := list byte.

(** An ASCII literal of the source, as a [str]. *)
Definition lit (s : string) : str :=
  map (fun a => Z.of_N (N_of_ascii a)) (list_ascii_of_string s).

Definition nl : char := 10.
Definition gt : char := 62.

Definition str_eqb (a b : str) : bool :=
  if list_eq_dec Z.eq_dec a b then true else false.

(** [Py_UNICODE_ISSPACE]: the code points [str.isspace], [str.strip] and the
    regular expression class [\s] (on a [str] pattern) treat as whitespace. *)
Definition isspace (c : char) : bool :=
  ((9 <=? c) && (c <=? 13)) || ((28 <=? c) && (c <=? 32))
  || (c =? 133) || (c =? 160) || (c =? 5760)
  || ((8192 <=? c) && (c <=? 8202))
  || (c =? 8232) || (c =? 8233) || (c =? 8239) || (c =? 8287) || (c =? 12288).

Fixpoint lstrip (s : str) : str :=
  match s with
  | c :: s' => if isspace c then lstrip s' else s
  | [] => []
  end.

Definition rstrip (s : str) : str := rev (lstrip (rev s)).

(** [s.strip()] *)
Definition strip (s : str) : str := rstrip (lstrip s).

(** [s.startswith(p)] *)
Fixpoint startswith (p s : str) : bool :=
  match p, s with
  | [], _ => true
  | a :: p', b :: s' => (a =? b) && startswith p' s'
  | _ :: _, [] => false
  end.

(** [new.join] of the characters of [s], with [new] at both ends: what
    [s.replace("", new)] gives. *)
Fixpoint interleave (new s : str) : str :=
  match s with
  | [] => new
  | c :: s' => new ++ c :: interleave new s'
  end.

(** The left-to-right scan of [str.replace] for a non-empty [old]: at an
    occurrence of [old] the replacement is written and the scan resumes after the
    occurrence ([skip] counts the characters of it still to pass over); elsewhere
    the character is copied. *)
Fixpoint replace_scan (old new : str) (skip : nat) (s : str) : str :=
  match s with
  | [] => []
  | c :: s' =>
      match skip with
      | S k => replace_scan old new k s'
      | O =>
          if startswith old s
          then new ++ replace_scan old new (Nat.pred (length old)) s'
          else c :: replace_scan old new 0 s'
      end
  end.

(** [s.replace(old, new)] *)
Definition str_replace (old new s : str) : str :=
  match old with
  | [] => interleave new s
  | _ :: _ => replace_scan old new 0 s
  end.

(** The number of positions of [s] at which [p] occurs. *)
Fixpoint occurrences (p s : str) : nat :=
  match s with
  | [] => if startswith p [] then 1%nat else 0%nat
  | _ :: s' => ((if startswith p s then 1 else 0) + occurrences p s')%nat
  end.

(** [s.find(p)], [None] for -1. *)
Fixpoint find (p s : str) : option nat :=
  if startswith p s then Some 0%nat
  else match s with
       | [] => None
       | _ :: s' => option_map S (find p s')
       end.

(** What the specification's wording of prompt assembly describes: only the
    first occurrence of [old] is replaced ([s.replace(old, new, 1)]). *)
Fixpoint replace_first (old new s : str) : str :=
  match s with
  | [] => if startswith old [] then new else []
  | c :: s' =>
      if startswith old s then new ++ skipn (length old) s
      else c :: replace_first old new s'
  end.

(** ** Prompt assembly (line 101) *)

Definition placeholder : str := lit "{file_text}".

(** [prompt.replace("{file_text}", file_text)] *)
Definition assemble (template file_text : str) : str :=
  str_replace placeholder file_text template.

(** ** The regular expressions of [get_key_ideas]

    The fragment of Python's [re] the two patterns use: a pattern is a sequence
    of atoms, matched by backtracking, a greedy repetition trying the longest
    run first. *)

Inductive atom : Type :=
| Chr (p : char -> bool)    (* one character of a class; a literal is the class of its matches *)
| Star (p : char -> bool)   (* [x*] for a one-character [x], greedy *)
| Bol.                      (* [^] under [re.MULTILINE] *)

Definition regex := list atom.

(** [^] with [re.MULTILINE] holds at the start of the string and just after a
    newline; [prev] is the character before the position, if any. *)
Definition at_bol (prev : option char) : bool :=
  match prev with
  | None => true
  | Some c => c =? nl
  end.

(** The length of the match of [re] that starts at the head of [s]. *)
Fixpoint match_here (re : regex) (prev : option char) (s : str) {struct re}
  : option nat :=
  match re with
  | [] => Some 0%nat
  | Chr p :: re' =>
      match s with
      | c :: s' => if p c then option_map S (match_here re' (Some c) s') else None
      | [] => None
      end
  | Bol :: re' => if at_bol prev then match_here re' prev s else None
  | Star p :: re' =>
      (fix star (prev : option char) (s : str) {struct s} : option nat :=
         match s with
         | c :: s' =>
             if p c then
               match star (Some c) s' with
               | Some n => Some (S n)
               | None => match_here re' prev s
               end
             else match_here re' prev s
         | [] => match_here re' prev s
         end) prev s
  end.

(** [re.search]: the leftmost match, as (start, length). *)
Fixpoint search_from (re : regex) (prev : option char) (s : str)
  : option (nat * nat) :=
  match match_here re prev s with
  | Some n => Some (0%nat, n)
  | None =>
      match s with
      | [] => None
      | c :: s' =>
          match search_from re (Some c) s' with
          | Some (i, n) => Some (S i, n)
          | None => None
          end
      end
  end.

Definition re_search (re : regex) (s : str) : option (nat * nat) :=
  search_from re None s.

(** The scan of [re.sub]: the non-overlapping matches, left to right, are
    replaced by [repl]; [skip] counts the characters of the current match still
    to pass over. An empty match is replaced too and the character after it
    copied. *)
Fixpoint sub_scan (re : regex) (repl : str) (skip : nat) (prev : option char)
  (s : str) : str :=
  match s with
  | [] =>
      match skip, match_here re prev [] with
      | O, Some _ => repl
      | _, _ => []
      end
  | c :: s' =>
      match skip with
      | S k => sub_scan re repl k (Some c) s'
      | O =>
          match match_here re prev s with
          | Some (S n) => repl ++ sub_scan re repl n (Some c) s'
          | Some O => repl ++ c :: sub_scan re repl 0 (Some c) s'
          | None => c :: sub_scan re repl 0 (Some c) s'
          end
      end
  end.

(** [re.sub(re, repl, s)] *)
Definition re_sub (re : regex) (repl s : str) : str := sub_scan re repl 0 None s.

(** What a cased ASCII letter of a pattern matches under [re.IGNORECASE] on a
    [str]: the characters whose lower case is the letter's ([lo]), which are the
    letter, its capital, U+212A KELVIN SIGN for k and U+0130 for i, and the
    characters the [re] module pairs with the letter besides (U+0131 with i,
    U+017F with s). *)
Definition ignorecase_eq (lo c : char) : bool :=
  (c =? lo) || (c =? lo - 32)
  || ((lo =? 107) && (c =? 8490))
  || ((lo =? 105) && ((c =? 304) || (c =? 305)))
  || ((lo =? 115) && (c =? 383)).

Definition ascii_lower (c : char) : char :=
  if (65 <=? c) && (c <=? 90) then c + 32 else c.

Definition is_ascii_letter (c : char) : bool :=
  ((65 <=? c) && (c <=? 90)) || ((97 <=? c) && (c <=? 122)).

(** An ASCII literal of a pattern compiled with [re.IGNORECASE]. *)
Definition literal_ignorecase (av : char) : atom :=
  if is_ascii_letter av then Chr (ignorecase_eq (ascii_lower av))
  else Chr (Z.eqb av).

(** [.] under [re.DOTALL] *)
Definition dot_all (c : char) : bool := true.

Definition opening_marker : str := lit "<markdown>".

(** The pattern of line 107, compiled with [re.IGNORECASE | re.DOTALL]: the
    literal [<markdown>], then one group holding a greedy repetition of [.]. *)
Definition markdown_re : regex :=
  map literal_ignorecase opening_marker ++ [Star dot_all].

(** [r'^\s*>\s*'] with [re.MULTILINE] (line 111) *)
Definition block_quote_re : regex :=
  [Bol; Star isspace; Chr (Z.eqb gt); Star isspace].

(** Line 111: [re.sub(r'^\s*>\s*', '', key_ideas, flags=re.MULTILINE)] *)
Definition remove_block_quotes (key_ideas : str) : str :=
  re_sub block_quote_re [] key_ideas.

(** Whitespace that stays within a line. *)
Definition inline_space (c : char) : bool := isspace c && negb (c =? nl).

(** Lines 107-113 of [get_key_ideas]: the payload of a model response.
    [match.group(1)] is what the final repetition matched: it starts after the
    marker's characters and ends where the match ends. *)
Definition parse (result : str) : option str :=
  match re_search markdown_re result with
  | Some (i, n) =>
      let group1 :=
        firstn (n - length opening_marker) (skipn (i + length opening_marker) result) in
      Some (remove_block_quotes (strip group1))
  | None => None
  end.

(** The responses of scenarios 1 and 3 of the specification. *)
Definition scenario_1 : str :=
  lit "<markdown>" ++ nl :: lit "Hello" ++ nl :: lit "</markdown>".

Definition scenario_3 : str :=
  lit "<MARKDOWN>" ++ nl :: lit "> quoted line" ++ nl :: lit "plain line"
  ++ nl :: lit "</markdown>".

(** ** UTF-8 *)

Definition byte_val (b : byte) : Z := Z.of_N (Byte.to_N b).

Definition continuation (b : Z) : bool := (128 <=? b) && (b <? 192).

Definition surrogate (cp : Z) : bool := (55296 <=? cp) && (cp <=? 57343).

(** The strict UTF-8 decoder of [bytes.decode("utf-8")] over octet values:
    [None] where Python raises [UnicodeDecodeError] (a stray continuation byte, a
    truncated or overlong sequence, a surrogate, a value past U+10FFFF). *)
Fixpoint utf8_decode (bs : list Z) : option str :=
  match bs with
  | [] => Some []
  | b0 :: r0 =>
      if b0 <? 128 then option_map (cons b0) (utf8_decode r0)
      else if b0 <? 224 then
        match r0 with
        | b1 :: r1 =>
            let cp := (b0 - 192) * 64 + (b1 - 128) in
            if (194 <=? b0) && continuation b1
            then option_map (cons cp) (utf8_decode r1)
            else None
        | [] => None
        end
      else if b0 <? 240 then
        match r0 with
        | b1 :: b2 :: r2 =>
            let cp := (b0 - 224) * 4096 + (b1 - 128) * 64 + (b2 - 128) in
            if continuation b1 && continuation b2 && (2048 <=? cp)
               && negb (surrogate cp)
            then option_map (cons cp) (utf8_decode r2)
            else None
        | _ => None
        end
      else if b0 <? 245 then
        match r0 with
        | b1 :: b2 :: b3 :: r3 =>
            let cp :=
              (b0 - 240) * 262144 + (b1 - 128) * 4096 + (b2 - 128) * 64
              + (b3 - 128) in
            if continuation b1 && continuation b2 && continuation b3
               && (65536 <=? cp) && (cp <=? 1114111)
            then option_map (cons cp) (utf8_decode r3)
            else None
        | _ => None
        end
      else None
  end.

(** [file_content.decode("utf-8")] *)
Definition decode (file_content : bytes) : option str :=
  utf8_decode (map byte_val file_content).

(** The UTF-8 encoding form of the Unicode standard, which says what valid UTF-8
    is: the octets of a sequence of scalar values. *)
Definition scalar_value (cp : Z) : Prop :=
  0 <= cp <= 1114111 /\ ~ (55296 <= cp <= 57343).

Definition utf8_encode_char (cp : Z) : list Z :=
  if cp <? 128 then [cp]
  else if cp <? 2048 then [192 + cp / 64; 128 + cp mod 64]
  else if cp <? 65536 then
    [224 + cp / 4096; 128 + (cp / 64) mod 64; 128 + cp mod 64]
  else
    [240 + cp / 262144; 128 + (cp / 4096) mod 64; 128 + (cp / 64) mod 64;
     128 + cp mod 64].

Definition utf8_encode (s : str) : list Z := flat_map utf8_encode_char s.

Definition valid_utf8 (file_content : bytes) : Prop :=
  exists s : str, Forall scalar_value s /\ utf8_encode s = map byte_val file_content.

(** ** Effects: exceptions, Streamlit calls, temporary files, the remote call *)

Inductive exn : Type :=
| TypeError (msg : str)
| UnicodeDecodeError (input : bytes)
| FileNotFoundError (path : nat)
| LibraryError (msg : str).   (* raised inside pymupdf, ebooklib or the genai client *)

(** What a run does that can be observed, in order. [st_error msg (Some e)] is
    [st.error(f"...{e}")] with [msg] the literal part. *)
Inductive event : Type :=
| st_error (msg : str) (e : option exn)
| st_warning (msg : str)
| st_success (msg : str)
| st_markdown (body : str)
| st_write (body : option str)
| st_empty
| remote_call (api_key prompt : str).   (* [model.generate_content(prompt)] *)

Record world : Type := World {
  temp_files : list (nat * bytes);   (* the temporary directory: path, content *)
  trace : list event                 (* oldest first *)
}.

Inductive outcome (A : Type) : Type :=
| Return (a : A)
| Raise (e : exn).
Arguments Return {A} a.
Arguments Raise {A} e.

(** Python code with effects: a state and exception monad over [world]. *)
Definition M (A : Type) : Type := world -> outcome A * world.

Definition ret {A} (a : A) : M A := fun w => (Return a, w).

Definition raise {A} (e : exn) : M A := fun w => (Raise e, w).

Definition bind {A B} (m : M A) (k : A -> M B) : M B :=
  fun w =>
    match m w with
    | (Return a, w') => k a w'
    | (Raise e, w') => (Raise e, w')
    end.

(** [try: m except Exception as e: handler e] *)
Definition try_except {A} (m : M A) (handler : exn -> M A) : M A :=
  fun w =>
    match m w with
    | (Raise e, w') => handler e w'
    | r => r
    end.

Notation "x <- m ;; k" := (bind m (fun x => k))
  (at level 61, m at next level, right associativity).
Notation "m ;;; k" := (bind m (fun _ => k))
  (at level 61, right associativity).

Definition emit (ev : event) : M unit :=
  fun w => (Return tt, World (temp_files w) (trace w ++ [ev])).

(** A library call that returns or raises. *)
Definition call {A} (r : exn + A) : M A :=
  match r with
  | inl e => raise e
  | inr a => ret a
  end.

Definition fresh_path (fs : list (nat * bytes)) : nat :=
  S (fold_right Nat.max 0%nat (map fst fs)).

(** Lines 133-135: [with tempfile.NamedTemporaryFile(delete=False) as temp_file],
    the content written, the name kept; the file stays when the block ends. *)
Definition NamedTemporaryFile (file_content : bytes) : M nat :=
  fun w =>
    let path := fresh_path (temp_files w) in
    (Return path, World ((path, file_content) :: temp_files w) (trace w)).

Fixpoint lookup (path : nat) (fs : list (nat * bytes)) : option bytes :=
  match fs with
  | [] => None
  | (p, content) :: fs' => if Nat.eqb p path then Some content else lookup path fs'
  end.

Definition remove_path (path : nat) (fs : list (nat * bytes)) : list (nat * bytes) :=
  filter (fun f => negb (Nat.eqb (fst f) path)) fs.

Definition read_file (path : nat) : M bytes :=
  fun w =>
    match lookup path (temp_files w) with
    | Some content => (Return content, w)
    | None => (Raise (FileNotFoundError path), w)
    end.

(** [os.unlink(path)] *)
Definition unlink (path : nat) : M unit :=
  fun w =>
    match lookup path (temp_files w) with
    | Some _ => (Return tt, World (remove_path path (temp_files w)) (trace w))
    | None => (Raise (FileNotFoundError path), w)
    end.

(** ** Documents *)

(** An item of an EPUB book: whether it is an [ebooklib.epub.EpubHtml], and its
    [get_content()]. *)
Record epub_item : Type := EpubItem {
  is_EpubHtml : bool;
  get_content : bytes
}.

(** Modelled from the spec: the tree BeautifulSoup builds from an item's markup
    (the bs4 package is not among the repository's files): text, and elements
    with a tag name and children. *)
#[warnings="-register-all"]
Inductive markup : Type :=
| Text (s : str)
| Tag (name : str) (children : list markup).

Definition script_or_style (name : str) : bool :=
  str_eqb name (lit "script") || str_eqb name (lit "style").

(** Modelled from the spec: [get_text()] of the bs4 package, missing from the
    repository's files, after the specification's "the extracted human-readable
    text (script/style and markup tags excluded)": the text of the tree in
    document order, without what stands inside a script or style element. *)
Fixpoint get_text (m : markup) : str :=
  match m with
  | Text s => s
  | Tag name children =>
      if script_or_style name then [] else flat_map get_text children
  end.

(** [soup.get_text()] for the parsed document, a sequence of top-level nodes. *)
Definition soup_get_text (soup : list markup) : str := flat_map get_text soup.

(** The text leaves of a tree in document order, each with whether it stands
    inside a script or style element ([hidden]). *)
Fixpoint leaves (hidden : bool) (m : markup) : list (bool * str) :=
  match m with
  | Text s => [(hidden, s)]
  | Tag name children =>
      flat_map (leaves (hidden || script_or_style name)) children
  end.

(** A leaf outside script and style elements. *)
Definition visible (l : bool * str) : bool := negb (fst l).

(** The human-readable text in the specification's words: the text leaves
    outside script and style elements, concatenated. *)
Definition readable_text (soup : list markup) : str :=
  concat (map snd (filter visible (flat_map (leaves false) soup))).

(** ** The libraries and the remote service the application calls *)

Class Collaborators : Type := {
  (* [pymupdf.open(stream=..., filetype="pdf")] and [page.get_text()] of each
     page in order, or the exception one of them raises *)
  pdf_pages : bytes -> exn + list str;
  (* [epub.read_epub] on a file of this content and [book.get_items()] *)
  read_epub : bytes -> exn + list epub_item;
  (* [BeautifulSoup(content, 'html.parser')] *)
  html_parser : bytes -> list markup;
  (* [model.generate_content(prompt)] with the key configured, then
     [response.candidates[0].content.parts[0].text]: the text, or the
     exception either raises *)
  gemini : str -> str -> exn + str
}.

Section Application.

Context {collaborators : Collaborators}.

(** ** [process_file] (lines 122-153)

    The body of the function; its [st.cache_data] decorator only spares a second
    run on the same arguments. Everything raised inside is caught on line 151,
    reported and turned into [None]. *)

Definition process_file (file_content : bytes) (file_type : str) : M (option str) :=
  try_except
    (if str_eqb file_type (lit "application/pdf") then
       doc <- call (pdf_pages file_content) ;;
       ret (Some (fold_left (fun full_text page => full_text ++ page) doc []))
     else if str_eqb file_type (lit "application/epub+zip") then
       temp_file_path <- NamedTemporaryFile file_content ;;
       archive <- read_file temp_file_path ;;
       book <- call (read_epub archive) ;;
       let full_text :=
         fold_left
           (fun full_text item =>
              if is_EpubHtml item
              then full_text ++ soup_get_text (html_parser (get_content item))
              else full_text)
           book [] in
       unlink temp_file_path ;;;
       ret (Some full_text)
     else
       match decode file_content with
       | Some full_text => ret (Some full_text)
       | None => raise (UnicodeDecodeError file_content)
       end)
    (fun e => emit (st_error (lit "An error occurred: ") (Some e)) ;;; ret None).

(** ** [get_key_ideas] (lines 98-118)

    [genai.configure] and the construction of the model (lines 99-100) call
    nothing remote and [print] shows nothing to the user: they are left out. *)

(** Line 101, [prompt.replace("{file_text}", file_text)]: a [TypeError] when
    [file_text] is [None]. *)
Definition replace_file_text (prompt : str) (file_text : option str) : M str :=
  match file_text with
  | Some text => ret (assemble prompt text)
  | None => raise (TypeError (lit "replace() argument 2 must be str, not None"))
  end.

(** Lines 103-105: the remote call and the text of its first candidate. *)
Definition generate_content (api_key prompt : str) : M str :=
  emit (remote_call api_key prompt) ;;;
  call (gemini api_key prompt).

Definition get_key_ideas (file_text : option str) (api_key prompt : str)
  : M (option str) :=
  prompt <- replace_file_text prompt file_text ;;
  try_except
    (result <- generate_content api_key prompt ;;
     ret (parse result))
    (fun e =>
       emit (st_error (lit "Error in Gemini API call: ") (Some e)) ;;; ret None).

(** ** The Home page (lines 171-206) *)

Record session : Type := Session {
  uploaded_file_content : option bytes;
  file_type : str;
  api_key : str;
  custom_prompt : str
}.

(** One run of the Home page on the session as it stands after the upload
    widget; [extract_lessons] is whether the button was pressed. *)
Definition home_page (ss : session) (extract_lessons : bool) : M unit :=
  match uploaded_file_content ss with
  | Some ((_ :: _) as file_content) =>
      full_text <- process_file file_content (file_type ss) ;;
      emit (st_write full_text) ;;;
      if extract_lessons then
        emit st_empty ;;;
        emit (st_warning (lit "Extracting key lessons...")) ;;;
        key_ideas <- get_key_ideas full_text (api_key ss) (custom_prompt ss) ;;
        emit st_empty ;;;
        match key_ideas with
        | None => emit (st_error (lit "Could not extract the lessons.") None)
        | Some lessons =>
            emit (st_success (lit "Key lessons extracted!")) ;;;
            emit (st_markdown lessons)
        end
      else ret tt
  | _ =>
      emit (st_write
              (Some (lit "Please upload a PDF, TXT, or EPUB file using the sidebar.")))
  end.

End Application.

Definition initial_world : world := World [] [].

(** Whether a run reached the remote call. *)
Definition is_remote_call (ev : event) : bool :=
  match ev with
  | remote_call _ _ => true
  | _ => false
  end.

(** ** The events and media types the properties name *)

Definition pdf_type : str := lit "application/pdf".
Definition epub_type : str := lit "application/epub+zip".

(** Line 152, line 117, line 201 and line 193. *)
Definition extraction_error (e : exn) : event :=
  st_error (lit "An error occurred: ") (Some e).
Definition call_error (e : exn) : event :=
  st_error (lit "Error in Gemini API call: ") (Some e).
Definition could_not_extract : event :=
  st_error (lit "Could not extract the lessons.") None.
Definition extracting : event := st_warning (lit "Extracting key lessons...").

(** ** Stand-ins for the libraries and the service, to run the code on examples *)

Definition sample_page : list markup :=
  [Tag (lit "html")
     [Tag (lit "head") [Tag (lit "style") [Text (lit "p {color: red}")]];
      Tag (lit "body")
        [Tag (lit "p") [Text (lit "Hi "); Tag (lit "b") [Text (lit "there")]];
         Tag (lit "script") [Text (lit "alert(1)")]]]].

(** Collaborators with fixed answers: a two-page PDF, [book] for every EPUB,
    [sample_page] for every markup, [reply] from the service. *)
Definition canned (book : exn + list epub_item) (reply : exn + str) : Collaborators :=
  {| pdf_pages := fun _ => inr [lit "Page1"; lit "Page2"];
     read_epub := fun _ => book;
     html_parser := fun _ => sample_page;
     gemini := fun _ _ => reply |}.

Definition no_service : exn := LibraryError (lit "connection refused").
Definition bad_archive : exn := LibraryError (lit "File is not a zip file").

(** A session with an upload, a key and the template of scenario 4. *)
Definition sample_session (file_content : bytes) (file_type : str) : session :=
  Session (Some file_content) file_type (lit "secret") (lit "Text: {file_text}").

(** The octets of [h], [e] with an acute accent, and a byte no UTF-8 text holds. *)
Definition sample_text : bytes := [x68; xc3; xa9].
Definition sample_garbage : bytes := [xff].

(** An upload that is no EPUB archive, and a book of one HTML item and one
    image. *)
Definition sample_upload : bytes := [x50; x4b].
Definition sample_book : list epub_item :=
  [EpubItem true [x3c; x70; x3e]; EpubItem false [x89; x50; x4e; x47]].

(** ** The sidebar of the Home page (lines 173-180) and the Prompt page
    (lines 208-214) *)

(** Lines 173-180: an upload of this run, if there is one, replaces the
    document and its media type kept in the session; the key field's content
    becomes the session's key. *)
Definition sidebar (ss : session) (uploaded_file : option (bytes * str))
  (key_input : str) : session :=
  match uploaded_file with
  | Some (content, type) => Session (Some content) type key_input (custom_prompt ss)
  | None =>
      Session (uploaded_file_content ss) (file_type ss) key_input (custom_prompt ss)
  end.

(** The literal of line 209. *)
Definition prompt_warning : str :=
  lit "<span style=" ++ 34 :: lit "color:yellow;" ++ 34
  :: lit ">**WARNING:** You NEED to mention &lt;file_text&gt;&lt;/file_text&gt; and &lt;markdown&gt;&lt;/markdown&gt; tags in the prompt. Make sure to press Save to apply changes".

(** Lines 208-214: the warning, the text area, whose content is [edited], and
    the Save button; the session after the run. *)
Definition prompt_page (ss : session) (edited : str) (save : bool) : M session :=
  emit (st_markdown prompt_warning) ;;;
  if save then
    emit (st_success (lit "Prompt saved!")) ;;;
    ret (Session (uploaded_file_content ss) (file_type ss) (api_key ss) edited)
  else ret ss.

(** ** Reports *)

(** A call of [st.error]. *)
Definition is_st_error (ev : event) : bool :=
  match ev with
  | st_error _ _ => true
  | _ => false
  end.

(** The report of line 117: a failed remote call. *)
Definition is_call_error (ev : event) : bool :=
  match ev with
  | st_error msg (Some _) => str_eqb msg (lit "Error in Gemini API call: ")
  | _ => false
  end.



(** ** Vocabulary for the properties of the parser *)

(** What the character [p] of the pattern of line 107 matches. *)
Definition marker_char (p c : char) : bool :=
  match literal_ignorecase p with
  | Chr f => f c
  | _ => false
  end.

(** [m] is an opening marker: [<markdown>] in some mix of cases. *)
Definition is_marker (m : str) : Prop :=
  Forall2 (fun p c => marker_char p c = true) opening_marker m.


(** ["\n".join(lines)] *)
Fixpoint join_lines (lines : list str) : str :=
  match lines with
  | [] => []
  | l :: rest =>
      match rest with
      | [] => l
      | _ :: _ => l ++ nl :: join_lines rest
      end
  end.

Definition no_newline (t : str) : bool := negb (existsb (Z.eqb nl) t).

(** A line of a payload: plain text [t], or text [t] behind whitespace [ws], a
    quote marker and whitespace [sp]. *)
Inductive line : Type :=
| Plain (t : str)
| Quoted (ws sp t : str).

Definition render (l : line) : str :=
  match l with
  | Plain t => t
  | Quoted ws sp t => ws ++ gt :: sp ++ t
  end.

Definition unquoted (l : line) : str :=
  match l with
  | Plain t => t
  | Quoted _ _ t => t
  end.

(** The lines the cleanup of line 111 treats one by one, those with text: a
    plain line holds a character that is not whitespace, and the first such
    character is no quote marker; behind the prefix of a quoted line (whitespace
    of the line, a marker, whitespace of the line) stands a text that is not
    empty and starts with a character that is not whitespace. Blank lines and
    lines that are a marker and nothing else are left out. *)
Definition line_ok (l : line) : bool :=
  match l with
  | Plain t =>
      no_newline t
      && match lstrip t with
         | c :: _ => negb (c =? gt)
         | [] => false
         end
  | Quoted ws sp t =>
      forallb inline_space ws && forallb inline_space sp && no_newline t
      && match t with
         | c :: _ => negb (isspace c)
         | [] => false
         end
  end.

(** * Properties *)

(** ** [str.replace] and prompt assembly *)

Lemma firstn_exact {A} (l r : list A) : firstn (length l) (l ++ r) = l.
Proof. induction l as [|x l IH]; simpl; [reflexivity|now rewrite IH]. Qed.

Lemma skipn_exact {A} (l r : list A) : skipn (length l) (l ++ r) = r.
Proof. induction l as [|x l IH]; simpl; [reflexivity|exact IH]. Qed.

Lemma skipn_exact2 {A} (l m r : list A) :
  skipn (length l + length m) (l ++ m ++ r) = r.
Proof.
  rewrite <- length_app, app_assoc. apply skipn_exact.
Qed.

Section Replace.

Variables (a : char) (old' new : str).
Let old : str := a :: old'.

Lemma startswith_app (p post : str) : startswith p (p ++ post) = true.
Proof.
  induction p as [|c p IH]; simpl; [reflexivity|].
  now rewrite Z.eqb_refl.
Qed.

Lemma startswith_split (p s : str) :
  startswith p s = true -> s = p ++ skipn (length p) s.
Proof.
  revert s; induction p as [|c p IH]; intros [|d s]; simpl; try easy.
  intros H. apply andb_true_iff in H as [Hc Hp].
  apply Z.eqb_eq in Hc. subst d. f_equal. now apply IH.
Qed.

Lemma replace_scan_skip (done s : str) :
  replace_scan old new (length done) (done ++ s) = replace_scan old new 0 s.
Proof.
  induction done as [|c done IH]; simpl; [reflexivity|exact IH].
Qed.

Lemma replace_scan_hit (s : str) :
  startswith old s = true ->
  replace_scan old new 0 s = new ++ replace_scan old new 0 (skipn (length old) s).
Proof.
  intros H. pose proof (startswith_split _ _ H) as E.
  set (post := skipn (length old) s) in *. clearbody post. subst s.
  change (old ++ post) with (a :: (old' ++ post)) at 1.
  cbn [replace_scan]. fold old.
  change (a :: old' ++ post) with (old ++ post).
  rewrite startswith_app.
  change (Nat.pred (length old)) with (length old').
  now rewrite replace_scan_skip.
Qed.

Lemma replace_scan_miss (c : char) (s : str) :
  startswith old (c :: s) = false ->
  replace_scan old new 0 (c :: s) = c :: replace_scan old new 0 s.
Proof.
  intros H. cbn [replace_scan]. now rewrite H.
Qed.

(** [find] gives the first occurrence. *)
Lemma find_occurs (s : str) (i : nat) :
  find old s = Some i -> startswith old (skipn i s) = true.
Proof.
  revert i; induction s as [|c s IH]; intros i.
  - simpl. discriminate.
  - cbn [find]. destruct (startswith old (c :: s)) eqn:E.
    + intros [= <-]. exact E.
    + destruct (find old s) as [j|]; simpl; [|discriminate].
      intros [= <-]. now apply IH.
Qed.

Lemma find_first (s : str) (i j : nat) :
  find old s = Some i -> (j < i)%nat -> startswith old (skipn j s) = false.
Proof.
  revert i j; induction s as [|c s IH]; intros i j.
  - simpl. discriminate.
  - cbn [find]. destruct (startswith old (c :: s)) eqn:E.
    + intros [= <-]. lia.
    + destruct (find old s) as [k|] eqn:F; simpl; [|discriminate].
      intros [= <-] Hj. destruct j as [|j]; [exact E|].
      apply (IH k); [reflexivity|lia].
Qed.

Lemma find_none (s : str) : find old s = None -> occurrences old s = 0%nat.
Proof.
  induction s as [|c s IH].
  - reflexivity.
  - cbn [find occurrences]. destruct (startswith old (c :: s)); [discriminate|].
    destruct (find old s); [discriminate|]. intros _. now rewrite IH.
Qed.

(** One step of the scan, in terms of [find]. *)
Lemma replace_scan_find (s : str) :
  match find old s with
  | None => replace_scan old new 0 s = s
  | Some i =>
      replace_scan old new 0 s
      = firstn i s ++ new ++ replace_scan old new 0 (skipn (i + length old) s)
  end.
Proof.
  induction s as [|c s IH].
  - reflexivity.
  - cbn [find]. destruct (startswith old (c :: s)) eqn:E.
    + now rewrite replace_scan_hit.
    + rewrite (replace_scan_miss _ _ E).
      destruct (find old s) as [i|]; simpl option_map; cbv iota.
      * rewrite IH. reflexivity.
      * now rewrite IH.
Qed.

Lemma occurrences_cons_le (c : char) (s : str) :
  (occurrences old s <= occurrences old (c :: s))%nat.
Proof. cbn [occurrences]. lia. Qed.

Lemma occurrences_app_le (pre s : str) :
  (occurrences old s <= occurrences old (pre ++ s))%nat.
Proof.
  induction pre as [|c pre IH]; [apply Nat.le_refl|].
  etransitivity; [exact IH|apply occurrences_cons_le].
Qed.

Lemma startswith_app_r (p s post : str) :
  startswith p s = true -> startswith p (s ++ post) = true.
Proof.
  revert s; induction p as [|c p IH]; intros [|d s]; simpl; try easy.
  intros H. apply andb_true_iff in H as [-> Hp]. now rewrite IH.
Qed.

Lemma occurrences_app_r_le (s post : str) :
  (occurrences old s <= occurrences old (s ++ post))%nat.
Proof.
  induction s as [|c s IH]; [simpl; lia|].
  change ((c :: s) ++ post) with (c :: (s ++ post)). cbn [occurrences].
  destruct (startswith old (c :: s)) eqn:E.
  - apply (startswith_app_r _ _ post) in E.
    change ((c :: s) ++ post) with (c :: (s ++ post)) in E. rewrite E. lia.
  - destruct (startswith old (c :: s ++ post)); lia.
Qed.

Lemma occurrences_zero_find (s : str) :
  occurrences old s = 0%nat -> find old s = None.
Proof.
  induction s as [|c s IH].
  - reflexivity.
  - cbn [find occurrences]. destruct (startswith old (c :: s)); [discriminate|].
    intros H. now rewrite IH.
Qed.

(** A string with exactly one occurrence of [old] splits around it, and both
    sides are free of [old]. *)
Lemma occurrences_one_split (s : str) :
  occurrences old s = 1%nat ->
  exists pre post,
    s = pre ++ old ++ post /\ find old s = Some (length pre)
    /\ occurrences old pre = 0%nat /\ occurrences old post = 0%nat.
Proof.
  induction s as [|c s IH].
  - discriminate.
  - cbn [occurrences find]. destruct (startswith old (c :: s)) eqn:E.
    + intros H. exists [], (skipn (length old) (c :: s)).
      split; [now apply startswith_split|].
      split; [reflexivity|]. split; [reflexivity|].
      pose proof (occurrences_app_le old' (skipn (length old) (c :: s))) as L.
      apply startswith_split in E.
      assert (s = old' ++ skipn (length old) (c :: s)) as Es.
      { set (post := skipn (length old) (c :: s)) in *. clearbody post.
        unfold old in E. now injection E. }
      rewrite <- Es in L. lia.
    + intros H. destruct (IH H) as (pre & post & -> & F & Hpre & Hpost).
      exists (c :: pre), post. rewrite F.
      split; [reflexivity|]. split; [reflexivity|]. split; [|exact Hpost].
      cbn [occurrences]. rewrite Hpre.
      destruct (startswith old (c :: pre)) eqn:E'; [|reflexivity].
      apply (startswith_app_r _ _ (old ++ post)) in E'.
      change ((c :: pre) ++ old ++ post) with (c :: pre ++ old ++ post) in E'.
      congruence.
Qed.

End Replace.

Lemma placeholder_cons : placeholder = 123 :: lit "file_text}".
Proof. reflexivity. Qed.

Lemma assemble_scan (template file_text : str) :
  assemble template file_text = replace_scan placeholder file_text 0 template.
Proof. reflexivity. Qed.

(** Claim C2, as the code has it. [assemble] replaces every occurrence of the
    placeholder, scanning left to right: a template without the placeholder is
    returned as it is; otherwise the part before the first occurrence
    ([find]) is kept, the occurrence becomes the extracted text, verbatim, and
    assembly goes on with the part of the template after the occurrence only,
    so the inserted text is never scanned. *)
Theorem assemble_replaces_every_occurrence (template file_text : str) :
  match find placeholder template with
  | None => assemble template file_text = template
  | Some i =>
      assemble template file_text
      = firstn i template ++ file_text
        ++ assemble (skipn (i + length placeholder) template) file_text
  end.
Proof.
  rewrite !assemble_scan.
  exact (replace_scan_find 123 (lit "file_text}") file_text template).
Qed.

(** Claim C2 as stated fails: with two placeholders in the template both are
    replaced, where replacing only the first would keep the second. *)
Lemma assemble_replaces_second_occurrence :
  assemble (lit "{file_text} and {file_text}") (lit "abc") = lit "abc and abc"
  /\ replace_first placeholder (lit "abc") (lit "{file_text} and {file_text}")
     = lit "abc and {file_text}"
  /\ assemble (lit "{file_text} and {file_text}") (lit "abc")
     <> replace_first placeholder (lit "abc") (lit "{file_text} and {file_text}").
Proof.
  split; [reflexivity|]. split; [reflexivity|].
  vm_compute. discriminate.
Qed.

(** Scenario 4 of the specification. *)
Lemma assemble_scenario_4 : assemble (lit "Text: {file_text}") (lit "abc") = lit "Text: abc".
Proof. reflexivity. Qed.

(** Claim C5, as the code has it. A template with exactly one placeholder is
    [pre ++ placeholder ++ post] with no placeholder in [pre] or in [post], and
    the assembled prompt is [pre ++ file_text ++ post]: the text verbatim at the
    placeholder's position, the rest of the template untouched. The prompt has
    at least as many placeholders as the text brings in. *)
Theorem assemble_single_placeholder (template file_text : str) :
  occurrences placeholder template = 1%nat ->
  exists pre post,
    template = pre ++ placeholder ++ post
    /\ find placeholder template = Some (length pre)
    /\ occurrences placeholder pre = 0%nat
    /\ occurrences placeholder post = 0%nat
    /\ assemble template file_text = pre ++ file_text ++ post
    /\ (occurrences placeholder file_text
        <= occurrences placeholder (assemble template file_text))%nat.
Proof.
  unfold assemble, str_replace.
  change placeholder with (123 :: lit "file_text}"). cbv beta iota.
  intros H.
  destruct (occurrences_one_split _ _ _ H) as (pre & post & E & F & Hpre & Hpost).
  exists pre, post.
  assert (replace_scan (123 :: lit "file_text}") file_text 0 template
          = pre ++ file_text ++ post) as A.
  { pose proof (replace_scan_find 123 (lit "file_text}") file_text template) as R.
    cbv zeta in R. rewrite F in R. refine (eq_trans R _). clear R. subst template.
    rewrite firstn_exact, skipn_exact2. f_equal. f_equal.
    pose proof (replace_scan_find 123 (lit "file_text}") file_text post) as R'.
    cbv zeta in R'.
    rewrite (occurrences_zero_find 123 (lit "file_text}") post Hpost) in R'.
    exact R'. }
  repeat split; try assumption.
  rewrite A.
  etransitivity; [|apply occurrences_app_le].
  apply occurrences_app_r_le.
Qed.

(** The witness of claim C5: scenario 4 of the specification. *)
Lemma assemble_single_placeholder_scenario_4 :
  exists pre post,
    lit "Text: {file_text}" = pre ++ placeholder ++ post
    /\ assemble (lit "Text: {file_text}") (lit "abc") = pre ++ lit "abc" ++ post.
Proof.
  destruct (assemble_single_placeholder (lit "Text: {file_text}") (lit "abc"))
    as (pre & post & E & _ & _ & _ & A & _); [reflexivity|].
  exists pre, post. split; assumption.
Defined.

(** Claim C5 as stated fails: the template has one placeholder, the text holds
    the placeholder, and so does the assembled prompt. *)
Lemma placeholder_survives_assembly :
  occurrences placeholder (lit "Text: {file_text}") = 1%nat
  /\ assemble (lit "Text: {file_text}") (lit "see {file_text}")
     = lit "Text: see {file_text}"
  /\ occurrences placeholder
       (assemble (lit "Text: {file_text}") (lit "see {file_text}")) = 1%nat.
Proof. repeat split; reflexivity. Qed.

(** A placeholder can also form across the borders of the inserted text, from a
    text that holds none. *)
Lemma placeholder_formed_across_insertion :
  occurrences placeholder (lit "{fi{file_text}xt}") = 1%nat
  /\ occurrences placeholder (lit "le_te") = 0%nat
  /\ assemble (lit "{fi{file_text}xt}") (lit "le_te") = placeholder.
Proof. repeat split; reflexivity. Qed.

(** ** The regular expressions *)

Lemma match_star_cons (p : char -> bool) (re : regex) prev (c : char) (s : str) :
  match_here (Star p :: re) prev (c :: s)
  = if p c then
      match match_here (Star p :: re) (Some c) s with
      | Some n => Some (S n)
      | None => match_here re prev (c :: s)
      end
    else match_here re prev (c :: s).
Proof. reflexivity. Qed.

Lemma match_star_nil (p : char -> bool) (re : regex) prev :
  match_here (Star p :: re) prev [] = match_here re prev [].
Proof. reflexivity. Qed.

(** A final greedy repetition takes the whole run of its class. *)
Lemma match_star_last (p : char -> bool) prev (run rest : str) :
  forallb p run = true ->
  match rest with c :: _ => p c = false | [] => True end ->
  match_here [Star p] prev (run ++ rest) = Some (length run).
Proof.
  intros Hrun Hrest. revert prev.
  induction run as [|x run IH]; intros prev.
  - destruct rest as [|c rest]; [reflexivity|].
    simpl app. rewrite match_star_cons, Hrest. reflexivity.
  - simpl in Hrun. apply andb_true_iff in Hrun as [Hx Hrun].
    simpl app. rewrite match_star_cons, Hx, (IH Hrun). reflexivity.
Qed.

(** A greedy repetition before a character outside its class takes the whole
    run: backing off cannot help. *)
Lemma match_star_chr (p q : char -> bool) (re : regex) prev (run : str)
  (c : char) (rest : str) (n : nat) :
  forallb p run = true -> p c = false -> q c = true ->
  match_here re (Some c) rest = Some n ->
  match_here (Star p :: Chr q :: re) prev (run ++ c :: rest)
  = Some (length run + S n)%nat.
Proof.
  intros Hrun Hp Hq Hre. revert prev.
  induction run as [|x run IH]; intros prev.
  - simpl app. rewrite match_star_cons, Hp. cbn [match_here]. rewrite Hq, Hre.
    reflexivity.
  - simpl in Hrun. apply andb_true_iff in Hrun as [Hx Hrun].
    simpl app. rewrite match_star_cons, Hx, (IH Hrun). reflexivity.
Qed.

Lemma block_quote_re_bol prev (s : str) :
  match_here block_quote_re prev s
  = if at_bol prev
    then match_here [Star isspace; Chr (Z.eqb gt); Star isspace] prev s
    else None.
Proof. reflexivity. Qed.

(** At the start of a line the pattern of line 111 takes the whitespace, one
    quote marker and the whitespace after it. *)
Lemma block_quote_match prev (ws ws' rest : str) :
  at_bol prev = true ->
  forallb isspace ws = true -> forallb isspace ws' = true ->
  match rest with c :: _ => isspace c = false | [] => True end ->
  match_here block_quote_re prev (ws ++ gt :: ws' ++ rest)
  = Some (length ws + S (length ws'))%nat.
Proof.
  intros Hbol Hws Hws' Hrest. rewrite block_quote_re_bol, Hbol.
  apply match_star_chr; try assumption; try reflexivity.
  now apply match_star_last.
Qed.

Lemma last_cons_default {A} (x d : A) (l : list A) : last (x :: l) d = last l x.
Proof.
  revert x d; induction l as [|y l IH]; intros x d; [reflexivity|].
  change (last (x :: y :: l) d) with (last (y :: l) d).
  now rewrite !(IH y).
Qed.

(** Passing over the rest of a match. *)
Lemma sub_scan_skip (re : regex) (repl : str) prev (m s : str) :
  sub_scan re repl (length m) prev (m ++ s)
  = sub_scan re repl 0 (last (map Some m) prev) s.
Proof.
  revert prev; induction m as [|c m IH]; intros prev; [reflexivity|].
  simpl length. simpl app. cbn [sub_scan]. rewrite IH.
  simpl map. now rewrite last_cons_default.
Qed.

(** One replacement: the match [m] at the head becomes [repl], and the scan goes
    on after it. *)
Lemma sub_scan_hit (re : regex) (repl : str) prev (c : char) (m s : str) :
  match_here re prev (c :: m ++ s) = Some (S (length m)) ->
  sub_scan re repl 0 prev (c :: m ++ s)
  = repl ++ sub_scan re repl 0 (last (map Some (c :: m)) prev) s.
Proof.
  intros H. cbn [sub_scan]. rewrite H, sub_scan_skip.
  simpl map. now rewrite last_cons_default.
Qed.

Lemma sub_scan_miss (re : regex) (repl : str) prev (c : char) (s : str) :
  match_here re prev (c :: s) = None ->
  sub_scan re repl 0 prev (c :: s) = c :: sub_scan re repl 0 (Some c) s.
Proof. intros H. cbn [sub_scan]. now rewrite H. Qed.

(** Within a line nothing is removed: the pattern only matches where a line
    starts. *)
Lemma sub_scan_inside_line (repl : str) prev (s : str) :
  at_bol prev = false -> ~ In nl s ->
  sub_scan block_quote_re repl 0 prev s = s.
Proof.
  revert prev; induction s as [|c s IH]; intros prev Hbol Hnl.
  - cbn [sub_scan]. now rewrite block_quote_re_bol, Hbol.
  - rewrite sub_scan_miss by now rewrite block_quote_re_bol, Hbol.
    f_equal. apply IH.
    + simpl. apply Z.eqb_neq. intros ->. apply Hnl. now left.
    + intros Hin. apply Hnl. now right.
Qed.

Lemma last_after_marker (ws ws' : str) prev :
  last (map Some (ws ++ gt :: ws')) prev = last (map Some ws') (Some gt).
Proof.
  revert prev; induction ws as [|x ws IH]; intros prev.
  - simpl app. simpl map. apply last_cons_default.
  - simpl app. simpl map. rewrite last_cons_default. apply IH.
Qed.

Lemma at_bol_inline (ws' : str) (c : char) :
  c <> nl -> forallb inline_space ws' = true ->
  at_bol (last (map Some ws') (Some c)) = false.
Proof.
  revert c; induction ws' as [|x ws' IH]; intros c Hc H.
  - simpl. now apply Z.eqb_neq.
  - simpl in H. apply andb_true_iff in H as [Hx H].
    simpl map. rewrite last_cons_default. apply IH; [|exact H].
    unfold inline_space in Hx. apply andb_true_iff in Hx as [_ Hx].
    apply negb_true_iff in Hx. now apply Z.eqb_neq.
Qed.

Lemma inline_space_isspace (ws' : str) :
  forallb inline_space ws' = true -> forallb isspace ws' = true.
Proof.
  induction ws' as [|x ws' IH]; [reflexivity|]. simpl.
  intros H. apply andb_true_iff in H as [Hx H].
  unfold inline_space in Hx. apply andb_true_iff in Hx as [-> _].
  now apply IH.
Qed.

(** What the cleanup does to a payload that opens with two quote markers: the
    first goes, with the whitespace around it, and the scan goes on behind the
    second, which stays. *)
Lemma remove_block_quotes_nested (ws ws' rest : str) :
  forallb isspace ws = true ->
  forallb inline_space ws' = true ->
  remove_block_quotes (ws ++ gt :: ws' ++ gt :: rest)
  = gt :: sub_scan block_quote_re [] 0 (Some gt) rest.
Proof.
  intros Hws Hws'.
  pose proof (block_quote_match None ws ws' (gt :: rest) eq_refl Hws
                (inline_space_isspace _ Hws') eq_refl) as Hm.
  pose proof (last_after_marker ws ws' None) as Hl.
  assert (length ws + S (length ws') = length (ws ++ gt :: ws'))%nat as El
    by (rewrite length_app; reflexivity).
  rewrite El in Hm.
  assert (ws ++ gt :: ws' ++ gt :: rest = (ws ++ gt :: ws') ++ gt :: rest) as Es
    by (rewrite <- app_assoc; reflexivity).
  unfold remove_block_quotes, re_sub. rewrite Es in *.
  destruct (ws ++ gt :: ws') as [|c m] eqn:Em.
  - destruct ws; discriminate.
  - simpl app in *. simpl length in Hm.
    rewrite (sub_scan_hit _ _ _ _ _ _ Hm), Hl, app_nil_l.
    apply sub_scan_miss.
    rewrite block_quote_re_bol, at_bol_inline; [reflexivity| |exact Hws'].
    discriminate.
Qed.

(** A payload of one line that opens with two quote markers (whitespace before
    the first, whitespace of the line between them) keeps the second: the
    cleanup removes one marker and leaves the rest of the line as it is. *)
Theorem nested_block_quote_keeps_inner_marker (ws ws' rest : str) :
  forallb isspace ws = true ->
  forallb inline_space ws' = true ->
  ~ In nl rest ->
  remove_block_quotes (ws ++ gt :: ws' ++ gt :: rest) = gt :: rest.
Proof.
  intros Hws Hws' Hrest.
  rewrite remove_block_quotes_nested by assumption.
  f_equal. apply sub_scan_inside_line; [reflexivity|exact Hrest].
Qed.

(** For instance the line [>> text] becomes [> text]. *)
Lemma nested_block_quote_example :
  remove_block_quotes (lit ">> text") = lit "> text".
Proof.
  apply (nested_block_quote_keeps_inner_marker [] [] (lit " text")).
  - reflexivity.
  - reflexivity.
  - vm_compute. intuition discriminate.
Defined.

Lemma parse_nested_block_quote :
  parse (lit "<markdown>" ++ nl :: lit "  > > text") = Some (lit "> text").
Proof. reflexivity. Qed.

(** ** The payload of a response *)

Lemma match_chr_cons (p : char -> bool) (re : regex) prev (c : char) (s : str) :
  match_here (Chr p :: re) prev (c :: s)
  = if p c then option_map S (match_here re (Some c) s) else None.
Proof. reflexivity. Qed.

(** The pattern of line 107 as compiled. *)
Lemma markdown_re_atoms :
  markdown_re
  = [Chr (Z.eqb 60); Chr (ignorecase_eq 109); Chr (ignorecase_eq 97);
     Chr (ignorecase_eq 114); Chr (ignorecase_eq 107); Chr (ignorecase_eq 100);
     Chr (ignorecase_eq 111); Chr (ignorecase_eq 119); Chr (ignorecase_eq 110);
     Chr (Z.eqb 62); Star dot_all].
Proof. reflexivity. Qed.

Lemma markdown_re_match prev (body : str) :
  match_here markdown_re prev (opening_marker ++ body)
  = Some (length opening_marker + length body)%nat.
Proof.
  pose proof (match_star_last dot_all (Some 62) body []) as H.
  rewrite app_nil_r in H.
  assert (forallb dot_all body = true) as Hb
    by (clear H; induction body as [|c body IH]; [reflexivity|exact IH]).
  specialize (H Hb I).
  rewrite markdown_re_atoms.
  change opening_marker with [60;109;97;114;107;100;111;119;110;62].
  cbn [app].
  repeat (rewrite match_chr_cons;
          match goal with
          | |- context [if ?b then _ else _] => change b with true
          end; cbv iota).
  match goal with
  | |- context [match_here ?r ?p body] =>
      assert (match_here r p body = Some (length body)) as -> by exact H
  end.
  reflexivity.
Qed.

(** A response that starts with the opening marker: the payload is all that
    follows, stripped and cleaned, a closing marker included. *)
Lemma parse_after_marker (body : str) :
  parse (opening_marker ++ body) = Some (remove_block_quotes (strip body)).
Proof.
  unfold parse, re_search.
  assert (search_from markdown_re None (opening_marker ++ body)
          = Some (0%nat, (length opening_marker + length body)%nat)) as ->.
  { change (opening_marker ++ body) with (60 :: lit "markdown>" ++ body).
    cbn [search_from].
    change (60 :: lit "markdown>" ++ body) with (opening_marker ++ body).
    now rewrite markdown_re_match. }
  cbv zeta. rewrite Nat.add_0_l, skipn_exact.
  replace (length opening_marker + length body - length opening_marker)%nat
    with (length body) by lia.
  now rewrite firstn_all.
Qed.

(** Claim C1, on the code: for scenario 1 the closing marker stays in the
    payload, so the result is not [Hello]. *)
Theorem parse_scenario_1_keeps_closing_marker :
  parse scenario_1 = Some (lit "Hello" ++ nl :: lit "</markdown>")
  /\ parse scenario_1 <> Some (lit "Hello").
Proof.
  split; [reflexivity|]. vm_compute. discriminate.
Qed.

(** Claim C9, on the code: for scenario 3 the marker is found whatever its case
    and the quote prefix is removed, but the closing marker stays in the
    payload. *)
Theorem parse_scenario_3_keeps_closing_marker :
  parse scenario_3
  = Some (lit "quoted line" ++ nl :: lit "plain line" ++ nl :: lit "</markdown>")
  /\ parse scenario_3 <> Some (lit "quoted line" ++ nl :: lit "plain line").
Proof.
  split; [reflexivity|]. vm_compute. discriminate.
Qed.

(** Without the closing marker scenario 3 gives what the specification says. *)
Lemma parse_scenario_3_without_closing_marker :
  parse (lit "<MARKDOWN>" ++ nl :: lit "> quoted line" ++ nl :: lit "plain line")
  = Some (lit "quoted line" ++ nl :: lit "plain line").
Proof. reflexivity. Qed.

(** Scenario 2 of the specification. *)
Lemma parse_scenario_2 : parse (lit "no markers here") = None.
Proof. reflexivity. Qed.

(** The removal of one line's prefix can run over the line break and keep the
    next line's marker from being seen at a line start. *)
Lemma block_quote_prefix_kept_after_bare_marker :
  remove_block_quotes (gt :: nl :: lit "  > x") = lit "> x".
Proof. reflexivity. Qed.

(** ** UTF-8: the decoder against the encoding form *)

Lemma utf8_decode_cons (b0 : Z) (r0 : list Z) :
  utf8_decode (b0 :: r0)
  = if b0 <? 128 then option_map (cons b0) (utf8_decode r0)
    else if b0 <? 224 then
      match r0 with
      | b1 :: r1 =>
          let cp := (b0 - 192) * 64 + (b1 - 128) in
          if (194 <=? b0) && continuation b1
          then option_map (cons cp) (utf8_decode r1)
          else None
      | [] => None
      end
    else if b0 <? 240 then
      match r0 with
      | b1 :: b2 :: r2 =>
          let cp := (b0 - 224) * 4096 + (b1 - 128) * 64 + (b2 - 128) in
          if continuation b1 && continuation b2 && (2048 <=? cp)
             && negb (surrogate cp)
          then option_map (cons cp) (utf8_decode r2)
          else None
      | _ => None
      end
    else if b0 <? 245 then
      match r0 with
      | b1 :: b2 :: b3 :: r3 =>
          let cp :=
            (b0 - 240) * 262144 + (b1 - 128) * 4096 + (b2 - 128) * 64
            + (b3 - 128) in
          if continuation b1 && continuation b2 && continuation b3
             && (65536 <=? cp) && (cp <=? 1114111)
          then option_map (cons cp) (utf8_decode r3)
          else None
      | _ => None
      end
    else None.
Proof. reflexivity. Qed.

Lemma continuation_spec (b : Z) : continuation b = true <-> 128 <= b < 192.
Proof. unfold continuation. rewrite andb_true_iff, Z.leb_le, Z.ltb_lt. tauto. Qed.

Lemma surrogate_spec (cp : Z) : surrogate cp = true <-> 55296 <= cp <= 57343.
Proof. unfold surrogate. rewrite andb_true_iff, !Z.leb_le. tauto. Qed.

Lemma surrogate_false (cp : Z) : surrogate cp = false <-> ~ 55296 <= cp <= 57343.
Proof.
  rewrite <- surrogate_spec. destruct (surrogate cp); split; intros H;
    try discriminate; try reflexivity.
  now contradiction H.
Qed.

(** Replaces the tests of the decoder by their values, each justified by
    linear arithmetic. *)
Ltac decide_test :=
  match goal with
  | |- context [?a <? ?b] =>
      first [ replace (a <? b) with true by (symmetry; apply Z.ltb_lt; lia)
            | replace (a <? b) with false by (symmetry; apply Z.ltb_ge; lia) ]
  | |- context [?a <=? ?b] =>
      first [ replace (a <=? b) with true by (symmetry; apply Z.leb_le; lia)
            | replace (a <=? b) with false by (symmetry; apply Z.leb_gt; lia) ]
  end.

Lemma decode_1 (b0 : Z) (r : list Z) :
  b0 < 128 ->
  utf8_decode (b0 :: r) = option_map (cons b0) (utf8_decode r).
Proof. intros H. rewrite utf8_decode_cons. now decide_test. Qed.

Lemma decode_2 (b0 b1 : Z) (r : list Z) :
  194 <= b0 < 224 -> 128 <= b1 < 192 ->
  utf8_decode (b0 :: b1 :: r)
  = option_map (cons ((b0 - 192) * 64 + (b1 - 128))) (utf8_decode r).
Proof.
  intros H0 H1. rewrite utf8_decode_cons. cbv zeta.
  apply continuation_spec in H1. rewrite H1.
  repeat decide_test. reflexivity.
Qed.

Lemma decode_3 (b0 b1 b2 : Z) (r : list Z) :
  224 <= b0 < 240 -> 128 <= b1 < 192 -> 128 <= b2 < 192 ->
  2048 <= (b0 - 224) * 4096 + (b1 - 128) * 64 + (b2 - 128) ->
  ~ 55296 <= (b0 - 224) * 4096 + (b1 - 128) * 64 + (b2 - 128) <= 57343 ->
  utf8_decode (b0 :: b1 :: b2 :: r)
  = option_map (cons ((b0 - 224) * 4096 + (b1 - 128) * 64 + (b2 - 128)))
      (utf8_decode r).
Proof.
  intros H0 H1 H2 Hlo Hsur. rewrite utf8_decode_cons. cbv zeta.
  apply continuation_spec in H1, H2. apply surrogate_false in Hsur.
  rewrite H1, H2, Hsur.
  repeat decide_test. reflexivity.
Qed.

Lemma decode_4 (b0 b1 b2 b3 : Z) (r : list Z) :
  240 <= b0 < 245 -> 128 <= b1 < 192 -> 128 <= b2 < 192 -> 128 <= b3 < 192 ->
  65536 <= (b0 - 240) * 262144 + (b1 - 128) * 4096 + (b2 - 128) * 64 + (b3 - 128)
           <= 1114111 ->
  utf8_decode (b0 :: b1 :: b2 :: b3 :: r)
  = option_map
      (cons ((b0 - 240) * 262144 + (b1 - 128) * 4096 + (b2 - 128) * 64
             + (b3 - 128)))
      (utf8_decode r).
Proof.
  intros H0 H1 H2 H3 Hcp. rewrite utf8_decode_cons. cbv zeta.
  apply continuation_spec in H1, H2, H3.
  rewrite H1, H2, H3.
  repeat decide_test. reflexivity.
Qed.

(** Decoding the encoding of a scalar value gives it back. *)
Lemma decode_encode_char (cp : Z) (bs : list Z) :
  scalar_value cp ->
  utf8_decode (utf8_encode_char cp ++ bs) = option_map (cons cp) (utf8_decode bs).
Proof.
  intros [Hr Hs]. unfold utf8_encode_char.
  destruct (Z.ltb_spec cp 128) as [H1|H1].
  { cbn [app]. apply decode_1. exact H1. }
  destruct (Z.ltb_spec cp 2048) as [H2|H2].
  { cbn [app].
    assert ((192 + cp / 64 - 192) * 64 + (128 + cp mod 64 - 128) = cp) as E
      by (Z.div_mod_to_equations; lia).
    rewrite decode_2; rewrite ?E.
    - reflexivity.
    - Z.div_mod_to_equations. lia.
    - Z.div_mod_to_equations. lia. }
  destruct (Z.ltb_spec cp 65536) as [H3|H3].
  { cbn [app].
    assert ((224 + cp / 4096 - 224) * 4096 + (128 + (cp / 64) mod 64 - 128) * 64
            + (128 + cp mod 64 - 128) = cp) as E
      by (Z.div_mod_to_equations; lia).
    rewrite decode_3; rewrite ?E; try lia.
    - reflexivity.
    - Z.div_mod_to_equations. lia.
    - Z.div_mod_to_equations. lia.
    - Z.div_mod_to_equations. lia. }
  cbn [app].
  assert ((240 + cp / 262144 - 240) * 262144
          + (128 + (cp / 4096) mod 64 - 128) * 4096
          + (128 + (cp / 64) mod 64 - 128) * 64 + (128 + cp mod 64 - 128) = cp)
    as E by (Z.div_mod_to_equations; lia).
  rewrite decode_4; rewrite ?E; try lia.
  - reflexivity.
  - Z.div_mod_to_equations. lia.
  - Z.div_mod_to_equations. lia.
  - Z.div_mod_to_equations. lia.
  - Z.div_mod_to_equations. lia.
Qed.

Lemma decode_encode (s : str) :
  Forall scalar_value s -> utf8_decode (utf8_encode s) = Some s.
Proof.
  induction 1 as [|cp s Hcp Hs IH]; [reflexivity|].
  unfold utf8_encode in *. simpl flat_map.
  rewrite decode_encode_char by exact Hcp. now rewrite IH.
Qed.

Lemma encode_char_1 (b0 : Z) : b0 < 128 -> utf8_encode_char b0 = [b0].
Proof. intros H. unfold utf8_encode_char. now decide_test. Qed.

Lemma encode_char_2 (b0 b1 : Z) :
  194 <= b0 < 224 -> 128 <= b1 < 192 ->
  utf8_encode_char ((b0 - 192) * 64 + (b1 - 128)) = [b0; b1].
Proof.
  intros H0 H1. unfold utf8_encode_char.
  set (cp := (b0 - 192) * 64 + (b1 - 128)).
  assert (128 <= cp < 2048) as Hcp by (subst cp; lia).
  repeat decide_test.
  replace (192 + cp / 64) with b0 by (subst cp; Z.div_mod_to_equations; lia).
  replace (128 + cp mod 64) with b1 by (subst cp; Z.div_mod_to_equations; lia).
  reflexivity.
Qed.

Lemma encode_char_3 (b0 b1 b2 : Z) :
  224 <= b0 < 240 -> 128 <= b1 < 192 -> 128 <= b2 < 192 ->
  2048 <= (b0 - 224) * 4096 + (b1 - 128) * 64 + (b2 - 128) ->
  utf8_encode_char ((b0 - 224) * 4096 + (b1 - 128) * 64 + (b2 - 128))
  = [b0; b1; b2].
Proof.
  intros H0 H1 H2 Hlo. unfold utf8_encode_char.
  set (cp := (b0 - 224) * 4096 + (b1 - 128) * 64 + (b2 - 128)) in *.
  assert (cp < 65536) as Hcp by (subst cp; lia).
  repeat decide_test.
  replace (224 + cp / 4096) with b0 by (subst cp; Z.div_mod_to_equations; lia).
  replace (128 + (cp / 64) mod 64) with b1
    by (subst cp; Z.div_mod_to_equations; lia).
  replace (128 + cp mod 64) with b2 by (subst cp; Z.div_mod_to_equations; lia).
  reflexivity.
Qed.

Lemma encode_char_4 (b0 b1 b2 b3 : Z) :
  240 <= b0 < 245 -> 128 <= b1 < 192 -> 128 <= b2 < 192 -> 128 <= b3 < 192 ->
  65536 <= (b0 - 240) * 262144 + (b1 - 128) * 4096 + (b2 - 128) * 64 + (b3 - 128) ->
  utf8_encode_char
    ((b0 - 240) * 262144 + (b1 - 128) * 4096 + (b2 - 128) * 64 + (b3 - 128))
  = [b0; b1; b2; b3].
Proof.
  intros H0 H1 H2 H3 Hlo. unfold utf8_encode_char.
  set (cp := (b0 - 240) * 262144 + (b1 - 128) * 4096 + (b2 - 128) * 64
             + (b3 - 128)) in *.
  repeat decide_test.
  replace (240 + cp / 262144) with b0 by (subst cp; Z.div_mod_to_equations; lia).
  replace (128 + (cp / 4096) mod 64) with b1
    by (subst cp; Z.div_mod_to_equations; lia).
  replace (128 + (cp / 64) mod 64) with b2
    by (subst cp; Z.div_mod_to_equations; lia).
  replace (128 + cp mod 64) with b3 by (subst cp; Z.div_mod_to_equations; lia).
  reflexivity.
Qed.

Lemma utf8_encode_cons (cp : Z) (s : str) :
  utf8_encode (cp :: s) = utf8_encode_char cp ++ utf8_encode s.
Proof. reflexivity. Qed.

(** The test of a branch of the decoder that returned something held. *)
Ltac branch_taken H C :=
  match type of H with
  | (if ?c then _ else _) = Some _ => destruct c eqn:C; [|discriminate H]
  end.

(** The rest decoded too, and the induction hypothesis applies to it. *)
Ltac decoded_rest H IH rest :=
  let s' := fresh "s'" in
  let E := fresh "E" in
  let Hs := fresh "Hs" in
  let He := fresh "He" in
  destruct (utf8_decode rest) as [s'|] eqn:E; [|discriminate H];
  injection H as <-;
  destruct (IH rest s') as [Hs He];
  [simpl length in *; lia
  |repeat (match goal with
           | F : Forall _ (_ :: _) |- _ => apply Forall_inv_tail in F
           end); assumption
  |exact E
  |split;
   [constructor; [unfold scalar_value; lia|exact Hs]
   |rewrite utf8_encode_cons, He]].

(** What the decoder accepts is the encoding of what it returns, and that is a
    sequence of scalar values. *)
Lemma decode_sound_upto (n : nat) (bs : list Z) (s : str) :
  (length bs <= n)%nat -> Forall (fun b => 0 <= b) bs ->
  utf8_decode bs = Some s ->
  Forall scalar_value s /\ utf8_encode s = bs.
Proof.
  revert bs s. induction n as [|n IH]; intros bs s Hn Hb H.
  - destruct bs; [|simpl in Hn; lia].
    injection H as <-. split; [constructor|reflexivity].
  - destruct bs as [|b0 r0].
    { injection H as <-. split; [constructor|reflexivity]. }
    rewrite utf8_decode_cons in H.
    pose proof (Forall_inv Hb) as Hb0. cbv beta in Hb0.
    destruct (Z.ltb_spec b0 128) as [L1|L1].
    { decoded_rest H IH r0. now rewrite encode_char_1. }
    destruct (Z.ltb_spec b0 224) as [L2|L2].
    { destruct r0 as [|b1 r1]; [discriminate H|]. cbv zeta in H.
      branch_taken H C. apply andb_true_iff in C as [C0 C1].
      apply Z.leb_le in C0. apply continuation_spec in C1.
      decoded_rest H IH r1. now rewrite encode_char_2. }
    destruct (Z.ltb_spec b0 240) as [L3|L3].
    { destruct r0 as [|b1 [|b2 r2]]; try discriminate H. cbv zeta in H.
      branch_taken H C. rewrite !andb_true_iff in C.
      destruct C as [[[C1 C2] C3] C4].
      apply continuation_spec in C1, C2. apply Z.leb_le in C3.
      apply negb_true_iff, surrogate_false in C4.
      decoded_rest H IH r2. now rewrite encode_char_3. }
    destruct (Z.ltb_spec b0 245) as [L4|L4]; [|discriminate H].
    destruct r0 as [|b1 [|b2 [|b3 r3]]]; try discriminate H. cbv zeta in H.
    branch_taken H C. rewrite !andb_true_iff in C.
    destruct C as [[[[C1 C2] C3] C4] C5].
    apply continuation_spec in C1, C2, C3. apply Z.leb_le in C4, C5.
    decoded_rest H IH r3. now rewrite encode_char_4.
Qed.

Lemma byte_val_range (b : byte) : 0 <= byte_val b < 256.
Proof.
  unfold byte_val. pose proof (Byte.to_N_bounded b) as H. lia.
Qed.

Lemma decode_sound (file_content : bytes) (s : str) :
  decode file_content = Some s ->
  Forall scalar_value s /\ utf8_encode s = map byte_val file_content.
Proof.
  apply (decode_sound_upto (length (map byte_val file_content))); [apply Nat.le_refl|].
  apply Forall_forall. intros x Hx. apply in_map_iff in Hx as (b & <- & _).
  apply byte_val_range.
Qed.

(** [decode] accepts exactly the valid UTF-8, and returns what was encoded. *)
Lemma decode_complete (file_content : bytes) (s : str) :
  Forall scalar_value s -> utf8_encode s = map byte_val file_content ->
  decode file_content = Some s.
Proof.
  intros Hs He. unfold decode. rewrite <- He. now apply decode_encode.
Qed.

Lemma decode_none_iff (file_content : bytes) :
  decode file_content = None <-> ~ valid_utf8 file_content.
Proof.
  split.
  - intros H (s & Hs & He). rewrite (decode_complete _ _ Hs He) in H.
    discriminate.
  - intros H. destruct (decode file_content) as [s|] eqn:E; [|reflexivity].
    contradiction H. exists s. now apply decode_sound.
Qed.

(** ** Temporary files *)

Lemma lookup_fresh (fs : list (nat * bytes)) (content : bytes) :
  lookup (fresh_path fs) ((fresh_path fs, content) :: fs) = Some content.
Proof. cbn [lookup]. now rewrite Nat.eqb_refl. Qed.

Lemma paths_below_fresh (fs : list (nat * bytes)) (f : nat * bytes) :
  In f fs -> (fst f < fresh_path fs)%nat.
Proof.
  unfold fresh_path. induction fs as [|g fs IH]; [easy|].
  intros [->|Hin]; simpl; [lia|]. specialize (IH Hin). lia.
Qed.

Lemma remove_path_fresh (fs : list (nat * bytes)) (content : bytes) :
  remove_path (fresh_path fs) ((fresh_path fs, content) :: fs) = fs.
Proof.
  unfold remove_path. cbn [filter fst]. rewrite Nat.eqb_refl. cbn [negb].
  assert (forall p, (forall f, In f fs -> (fst f < p)%nat) ->
                    filter (fun f => negb (Nat.eqb (fst f) p)) fs = fs) as Hall.
  { intros p. induction fs as [|g fs IH]; intros Hlt; [reflexivity|].
    cbn [filter]. pose proof (Hlt g (or_introl eq_refl)) as Hg.
    replace (Nat.eqb (fst g) p) with false
      by (symmetry; apply Nat.eqb_neq; lia).
    cbn [negb]. f_equal. apply IH. intros f Hf. apply Hlt. now right. }
  apply Hall. intros f. apply paths_below_fresh.
Qed.

Lemma lookup_in (path : nat) (fs : list (nat * bytes)) (content : bytes) :
  lookup path fs = Some content -> In (path, content) fs.
Proof.
  induction fs as [|[p c] fs IH]; [discriminate|]. cbn [lookup].
  destruct (Nat.eqb_spec p path) as [->|_].
  - intros [= ->]. now left.
  - intros H. right. now apply IH.
Qed.

(** ** [process_file], branch by branch *)

Section ProcessFile.

Context {collaborators : Collaborators}.

Lemma world_eta (w : world) : World (temp_files w) (trace w) = w.
Proof. now destruct w. Qed.

Lemma process_file_pdf (file_content : bytes) (w : world) :
  process_file file_content pdf_type w
  = match pdf_pages file_content with
    | inr doc => (Return (Some (concat doc)), w)
    | inl e => (Return None, World (temp_files w) (trace w ++ [extraction_error e]))
    end.
Proof.
  unfold process_file, try_except, bind, call.
  change (str_eqb pdf_type (lit "application/pdf")) with true. cbv iota.
  destruct (pdf_pages file_content) as [e|doc]; [reflexivity|].
  unfold ret. do 2 f_equal. f_equal.
  assert (forall acc, fold_left (fun full_text page : str => full_text ++ page) doc acc
                      = acc ++ concat doc) as Hfold.
  { induction doc as [|page doc IH]; intros acc; simpl.
    - now rewrite app_nil_r.
    - now rewrite IH, app_assoc. }
  apply (Hfold []).
Qed.

(** The text of an EPUB book as the loop of lines 140-143 builds it. *)
Lemma epub_loop (book : list epub_item) (acc : str) :
  fold_left
    (fun full_text item =>
       if is_EpubHtml item
       then full_text ++ soup_get_text (html_parser (get_content item))
       else full_text)
    book acc
  = acc ++ concat (map (fun item => soup_get_text (html_parser (get_content item)))
                     (filter is_EpubHtml book)).
Proof.
  revert acc; induction book as [|item book IH]; intros acc; simpl.
  - now rewrite app_nil_r.
  - rewrite IH. destruct (is_EpubHtml item); [|reflexivity].
    simpl. now rewrite app_assoc.
Qed.

Lemma process_file_epub (file_content : bytes) (w : world) :
  process_file file_content epub_type w
  = match read_epub file_content with
    | inr book =>
        (Return
           (Some (concat (map (fun item => soup_get_text (html_parser (get_content item)))
                            (filter is_EpubHtml book)))),
         w)
    | inl e =>
        (Return None,
         World ((fresh_path (temp_files w), file_content) :: temp_files w)
           (trace w ++ [extraction_error e]))
    end.
Proof.
  unfold process_file, try_except, bind, call, NamedTemporaryFile, read_file,
    unlink.
  change (str_eqb epub_type (lit "application/pdf")) with false.
  change (str_eqb epub_type (lit "application/epub+zip")) with true.
  cbv iota. cbn [temp_files trace]. rewrite lookup_fresh.
  destruct (read_epub file_content) as [e|book]; [reflexivity|].
  unfold ret. cbn [temp_files trace]. rewrite lookup_fresh, remove_path_fresh.
  rewrite world_eta, epub_loop. reflexivity.
Qed.

Lemma process_file_txt (file_content : bytes) (file_type : str) (w : world) :
  str_eqb file_type pdf_type = false -> str_eqb file_type epub_type = false ->
  process_file file_content file_type w
  = match decode file_content with
    | Some full_text => (Return (Some full_text), w)
    | None =>
        (Return None,
         World (temp_files w)
           (trace w ++ [extraction_error (UnicodeDecodeError file_content)]))
    end.
Proof.
  intros Hpdf Hepub. unfold process_file, try_except.
  unfold pdf_type in Hpdf. unfold epub_type in Hepub. rewrite Hpdf, Hepub.
  destruct (decode file_content); reflexivity.
Qed.

Lemma str_eqb_eq (a b : str) : str_eqb a b = true -> a = b.
Proof. unfold str_eqb. now destruct (list_eq_dec Z.eq_dec a b). Qed.

(** [process_file] never raises; when it returns [None] it has reported an
    error, and it never calls the service. *)
Lemma process_file_outcome (file_content : bytes) (file_type : str) (w : world) :
  (exists full_text fs,
      process_file file_content file_type w
      = (Return (Some full_text), World fs (trace w)))
  \/ (exists e fs,
        process_file file_content file_type w
        = (Return None, World fs (trace w ++ [extraction_error e]))).
Proof.
  destruct (str_eqb file_type pdf_type) eqn:Hpdf.
  - apply str_eqb_eq in Hpdf. subst. rewrite process_file_pdf.
    destruct (pdf_pages file_content) as [e|doc].
    + right. now exists e, (temp_files w).
    + left. exists (concat doc), (temp_files w). now rewrite world_eta.
  - destruct (str_eqb file_type epub_type) eqn:Hepub.
    + apply str_eqb_eq in Hepub. subst. rewrite process_file_epub.
      destruct (read_epub file_content) as [e|book].
      * right. eexists _, _. reflexivity.
      * left. eexists _, (temp_files w). now rewrite world_eta.
    + rewrite process_file_txt by assumption.
      destruct (decode file_content) as [s|].
      * left. exists s, (temp_files w). now rewrite world_eta.
      * right. eexists _, _. reflexivity.
Qed.

End ProcessFile.

(** ** Plain text *)

(** Claim C8. For a media type that is neither PDF nor EPUB, [process_file]
    returns the text whose UTF-8 encoding the bytes are, whenever there is one,
    and changes nothing; and it returns [None], having reported the decoding
    error, exactly when the bytes are not valid UTF-8. *)
Theorem plain_text_extraction {collaborators : Collaborators}
  (file_content : bytes) (file_type : str) (w : world) :
  str_eqb file_type pdf_type = false ->
  str_eqb file_type epub_type = false ->
  (forall s : str,
      Forall scalar_value s -> utf8_encode s = map byte_val file_content ->
      process_file file_content file_type w = (Return (Some s), w))
  /\ (process_file file_content file_type w
      = (Return None,
         World (temp_files w)
           (trace w ++ [extraction_error (UnicodeDecodeError file_content)]))
      <-> ~ valid_utf8 file_content).
Proof.
  intros Hpdf Hepub. rewrite (process_file_txt _ _ _ Hpdf Hepub). split.
  - intros s Hs He. now rewrite (decode_complete _ _ Hs He).
  - rewrite <- decode_none_iff.
    destruct (decode file_content); split; intros H; try reflexivity;
      discriminate H.
Qed.

(** The witness of claim C8: a text file of three octets, two characters. *)
Lemma plain_text_extraction_example :
  @process_file (canned (inl bad_archive) (inl no_service))
    sample_text (lit "text/plain") initial_world
  = (Return (Some [104; 233]), initial_world).
Proof.
  destruct (@plain_text_extraction (canned (inl bad_archive) (inl no_service))
              sample_text (lit "text/plain") initial_world eq_refl eq_refl)
    as [H _].
  apply H.
  - repeat constructor; unfold scalar_value; lia.
  - reflexivity.
Defined.

(** Octets that are not UTF-8 give no text. *)
Lemma plain_text_extraction_garbage :
  @process_file (canned (inl bad_archive) (inl no_service))
    sample_garbage (lit "text/plain") initial_world
  = (Return None, World [] [extraction_error (UnicodeDecodeError sample_garbage)]).
Proof. reflexivity. Qed.

(** ** EPUB: the temporary file *)

Lemma fresh_path_unused (fs : list (nat * bytes)) : lookup (fresh_path fs) fs = None.
Proof.
  destruct (lookup (fresh_path fs) fs) as [content|] eqn:E; [|reflexivity].
  apply lookup_in, paths_below_fresh in E. simpl in E. lia.
Qed.

(** Claim C3, on the code: when [epub.read_epub] raises, [process_file] returns
    [None] with the error reported, and the temporary file it created, which
    was not there before, is still there with the upload in it. *)
Theorem epub_parse_failure_keeps_temp_file {collaborators : Collaborators}
  (file_content : bytes) (w : world) (e : exn) :
  read_epub file_content = inl e ->
  process_file file_content epub_type w
  = (Return None,
     World ((fresh_path (temp_files w), file_content) :: temp_files w)
       (trace w ++ [extraction_error e]))
  /\ lookup (fresh_path (temp_files w)) (temp_files w) = None
  /\ lookup (fresh_path (temp_files w))
       (temp_files (snd (process_file file_content epub_type w)))
     = Some file_content.
Proof.
  intros H. rewrite process_file_epub, H. split; [reflexivity|].
  split; [apply fresh_path_unused|]. cbn [snd temp_files]. apply lookup_fresh.
Qed.

(** The witness of claim C3's theorem: an upload that is no archive leaves one
    temporary file behind. *)
Lemma epub_parse_failure_example :
  temp_files
    (snd (@process_file (canned (inl bad_archive) (inl no_service))
            sample_upload epub_type initial_world))
  = [(1%nat, sample_upload)].
Proof.
  destruct (@epub_parse_failure_keeps_temp_file
              (canned (inl bad_archive) (inl no_service))
              sample_upload initial_world bad_archive eq_refl) as [H _].
  rewrite H. reflexivity.
Defined.

(** When the archive parses, line 145 is reached and the temporary file is
    gone: the files are as before. *)
Lemma epub_success_removes_temp_file {collaborators : Collaborators}
  (file_content : bytes) (w : world) (book : list epub_item) :
  read_epub file_content = inr book ->
  temp_files (snd (process_file file_content epub_type w)) = temp_files w.
Proof. intros H. now rewrite process_file_epub, H. Qed.

(** ** EPUB: the text *)

Lemma markup_induction (P : markup -> Prop) :
  (forall s, P (Text s)) ->
  (forall name children, Forall P children -> P (Tag name children)) ->
  forall m, P m.
Proof.
  intros HText HTag. fix IH 1. intros [s|name children].
  - apply HText.
  - apply HTag. induction children as [|c children IHc]; constructor.
    + apply IH.
    + exact IHc.
Qed.

Lemma filter_flat_map_nil {A B} (f : A -> list B) (p : B -> bool) (l : list A) :
  Forall (fun a => filter p (f a) = []) l -> filter p (flat_map f l) = [].
Proof.
  induction 1 as [|a l Ha Hl IH]; [reflexivity|].
  cbn [flat_map]. now rewrite filter_app, Ha, IH.
Qed.

(** Nothing inside a script or style element is readable. *)
Lemma leaves_hidden (m : markup) : filter visible (leaves true m) = [].
Proof.
  induction m as [s|name children IH] using markup_induction; [reflexivity|].
  cbn [leaves orb]. now apply filter_flat_map_nil.
Qed.

Lemma get_text_leaves (m : markup) :
  get_text m = concat (map snd (filter visible (leaves false m))).
Proof.
  induction m as [s|name children IH] using markup_induction.
  - cbn. now rewrite app_nil_r.
  - cbn [get_text leaves orb]. destruct (script_or_style name).
    + rewrite filter_flat_map_nil; [reflexivity|].
      apply Forall_forall. intros c _. apply leaves_hidden.
    + induction IH as [|c children Hc Hcs IHcs]; [reflexivity|].
      cbn [flat_map]. rewrite filter_app, map_app, concat_app, <- Hc, <- IHcs.
      reflexivity.
Qed.

Lemma soup_get_text_readable (soup : list markup) :
  soup_get_text soup = readable_text soup.
Proof.
  unfold soup_get_text, readable_text.
  induction soup as [|m soup IH]; [reflexivity|].
  cbn [flat_map]. rewrite filter_app, map_app, concat_app, <- IH.
  now rewrite get_text_leaves.
Qed.

(** Claim C4. For an EPUB that parses, [process_file] returns, for the items
    that are [EpubHtml] and in the book's order, the readable text of each: its
    text leaves outside script and style elements, with no tag and nothing of
    the other items; and it leaves no file behind. *)
Theorem epub_extraction_is_readable_text {collaborators : Collaborators}
  (file_content : bytes) (w : world) (book : list epub_item) :
  read_epub file_content = inr book ->
  process_file file_content epub_type w
  = (Return
       (Some (concat (map (fun item => readable_text (html_parser (get_content item)))
                        (filter is_EpubHtml book)))),
     w).
Proof.
  intros H. rewrite process_file_epub, H. do 3 f_equal.
  apply (f_equal (@concat char)), map_ext. intros item. apply soup_get_text_readable.
Qed.

(** The witness of claim C4: of a book with one page and one image the text of
    the page is kept, without its style sheet and its script. *)
Lemma epub_extraction_example :
  @process_file (canned (inr sample_book) (inl no_service))
    sample_upload epub_type initial_world
  = (Return (Some (lit "Hi there")), initial_world).
Proof.
  rewrite (@epub_extraction_is_readable_text
             (canned (inr sample_book) (inl no_service))
             sample_upload initial_world sample_book eq_refl).
  reflexivity.
Defined.

(** ** The Home page: extraction, the remote call, the reports *)

Section HomePage.

Context {collaborators : Collaborators}.

(** Without a text line 101 raises before the [try] of line 102. *)
Lemma get_key_ideas_no_text (api_key prompt : str) (w : world) :
  get_key_ideas None api_key prompt w
  = (Raise (TypeError (lit "replace() argument 2 must be str, not None")), w).
Proof. reflexivity. Qed.

Lemma get_key_ideas_text (file_text api_key prompt : str) (w : world) :
  get_key_ideas (Some file_text) api_key prompt w
  = match gemini api_key (assemble prompt file_text) with
    | inr result =>
        (Return (parse result),
         World (temp_files w)
           (trace w ++ [remote_call api_key (assemble prompt file_text)]))
    | inl e =>
        (Return None,
         World (temp_files w)
           (trace w ++ [remote_call api_key (assemble prompt file_text);
                        call_error e]))
    end.
Proof.
  unfold get_key_ideas, replace_file_text, generate_content, try_except, bind,
    emit, call, ret. cbv beta iota.
  destruct (gemini api_key (assemble prompt file_text)) as [e|result].
  - cbn [raise temp_files trace]. unfold call_error.
    now rewrite <- app_assoc.
  - reflexivity.
Qed.

(** The run up to the button. *)
Lemma home_page_extracted (ss : session) (extract_lessons : bool) (w w1 : world)
  (file_content : bytes) (full_text : option str) :
  uploaded_file_content ss = Some file_content -> file_content <> [] ->
  process_file file_content (file_type ss) w = (Return full_text, w1) ->
  home_page ss extract_lessons w
  = (if extract_lessons then
       emit st_empty ;;;
       emit extracting ;;;
       key_ideas <- get_key_ideas full_text (api_key ss) (custom_prompt ss) ;;
       emit st_empty ;;;
       match key_ideas with
       | None => emit could_not_extract
       | Some lessons =>
           emit (st_success (lit "Key lessons extracted!")) ;;;
           emit (st_markdown lessons)
       end
     else ret tt)
      (World (temp_files w1) (trace w1 ++ [st_write full_text])).
Proof.
  intros Hup Hne Hpf. unfold home_page. rewrite Hup.
  destruct file_content as [|b rest]; [contradiction|].
  unfold bind at 1. rewrite Hpf. unfold bind at 1. reflexivity.
Qed.

End HomePage.

(** Claim C6. When [process_file] returns no text, the run of the Home page has
    reported the extraction error and none of what it does after that is the
    remote call, pressed button or not; with the button pressed the run ends in
    the [TypeError] of line 101, before line 103. *)
Theorem failed_extraction_never_reaches_service {collaborators : Collaborators}
  (ss : session) (extract_lessons : bool) (w : world) (file_content : bytes) :
  uploaded_file_content ss = Some file_content -> file_content <> [] ->
  fst (process_file file_content (file_type ss) w) = Return None ->
  exists e evs,
    trace (snd (home_page ss extract_lessons w))
    = trace w ++ extraction_error e :: evs
    /\ existsb is_remote_call evs = false
    /\ (extract_lessons = true ->
        exists msg, fst (home_page ss extract_lessons w) = Raise (TypeError msg)).
Proof.
  intros Hup Hne Hnone.
  destruct (process_file_outcome file_content (file_type ss) w)
    as [(text & fs & Hpf)|(e & fs & Hpf)].
  { rewrite Hpf in Hnone. discriminate Hnone. }
  rewrite (home_page_extracted ss extract_lessons w _ file_content None Hup Hne Hpf).
  exists e. destruct extract_lessons.
  - exists [st_write None; st_empty; extracting]. split; [|split].
    + cbn. rewrite <- !app_assoc. reflexivity.
    + reflexivity.
    + intros _. eexists. reflexivity.
  - exists [st_write None]. split; [|split].
    + cbn. rewrite <- !app_assoc. reflexivity.
    + reflexivity.
    + discriminate.
Qed.

(** The witness of claim C6: a text file that is not UTF-8, the button
    pressed. *)
Lemma failed_extraction_example :
  exists e evs,
    trace (snd (@home_page (canned (inl bad_archive) (inr (lit "<markdown>ok")))
                  (sample_session sample_garbage (lit "text/plain")) true
                  initial_world))
    = trace initial_world ++ extraction_error e :: evs
    /\ existsb is_remote_call evs = false
    /\ (true = true ->
        exists msg,
          fst (@home_page (canned (inl bad_archive) (inr (lit "<markdown>ok")))
                 (sample_session sample_garbage (lit "text/plain")) true
                 initial_world)
          = Raise (TypeError msg)).
Proof.
  apply (@failed_extraction_never_reaches_service
           (canned (inl bad_archive) (inr (lit "<markdown>ok")))
           (sample_session sample_garbage (lit "text/plain")) true initial_world
           sample_garbage).
  - reflexivity.
  - discriminate.
  - reflexivity.
Defined.

(** After a successful extraction and with the button pressed: a response
    without the payload and a failed call both make
    [get_key_ideas] return [None], and the page ends both runs with the same
    report, [could_not_extract]; the runs differ by the one [call_error] that
    [get_key_ideas] emits when the call fails. *)
Theorem parse_failure_reported_as_call_failure {collaborators : Collaborators}
  (ss : session) (w w1 : world) (file_content : bytes) (full_text : str) :
  uploaded_file_content ss = Some file_content -> file_content <> [] ->
  process_file file_content (file_type ss) w = (Return (Some full_text), w1) ->
  (forall result : str,
      gemini (api_key ss) (assemble (custom_prompt ss) full_text) = inr result ->
      parse result = None ->
      (forall w', fst (get_key_ideas (Some full_text) (api_key ss)
                         (custom_prompt ss) w') = Return None)
      /\ home_page ss true w
         = (Return tt,
            World (temp_files w1)
              (trace w1
               ++ [st_write (Some full_text); st_empty; extracting;
                   remote_call (api_key ss) (assemble (custom_prompt ss) full_text);
                   st_empty; could_not_extract])))
  /\ (forall e : exn,
         gemini (api_key ss) (assemble (custom_prompt ss) full_text) = inl e ->
         (forall w', fst (get_key_ideas (Some full_text) (api_key ss)
                            (custom_prompt ss) w') = Return None)
         /\ home_page ss true w
            = (Return tt,
               World (temp_files w1)
                 (trace w1
                  ++ [st_write (Some full_text); st_empty; extracting;
                      remote_call (api_key ss)
                        (assemble (custom_prompt ss) full_text);
                      call_error e; st_empty; could_not_extract]))).
Proof.
  intros Hup Hne Hpf.
  rewrite (home_page_extracted ss true w w1 file_content (Some full_text)
             Hup Hne Hpf).
  split.
  - intros result Hg Hp. split.
    + intros w'. now rewrite get_key_ideas_text, Hg, Hp.
    + unfold bind, emit. cbn [temp_files trace].
      rewrite get_key_ideas_text, Hg, Hp. cbn [temp_files trace].
      unfold could_not_extract. rewrite <- !app_assoc. reflexivity.
  - intros e Hg. split.
    + intros w'. now rewrite get_key_ideas_text, Hg.
    + unfold bind, emit. cbn [temp_files trace].
      rewrite get_key_ideas_text, Hg. cbn [temp_files trace].
      unfold could_not_extract. rewrite <- !app_assoc. reflexivity.
Qed.

(** For instance the run in which the service answers scenario 2's response. *)
Lemma parse_failure_example :
  @home_page (canned (inl bad_archive) (inr (lit "no markers here")))
    (sample_session sample_text (lit "text/plain")) true initial_world
  = (Return tt,
     World []
       [st_write (Some [104; 233]); st_empty; extracting;
        remote_call (lit "secret") (lit "Text: " ++ [104; 233]);
        st_empty; could_not_extract]).
Proof.
  destruct (@parse_failure_reported_as_call_failure
              (canned (inl bad_archive) (inr (lit "no markers here")))
              (sample_session sample_text (lit "text/plain"))
              initial_world initial_world sample_text [104; 233])
    as [Hparse _].
  - reflexivity.
  - discriminate.
  - reflexivity.
  - destruct (Hparse (lit "no markers here") eq_refl eq_refl) as [_ Hpage].
    exact Hpage.
Defined.

(** What [get_key_ideas] hands its caller is the same [None] for a response
    without the payload and for a service that cannot be reached, and the last
    report of the page is the same too: the two failures differ in the reports
    before it only. *)
Lemma both_failures_return_none :
  fst (@get_key_ideas (canned (inl bad_archive) (inr (lit "no markers here")))
         (Some (lit "abc")) (lit "secret") (lit "Text: {file_text}") initial_world)
  = Return None
  /\ fst (@get_key_ideas (canned (inl bad_archive) (inl no_service))
            (Some (lit "abc")) (lit "secret") (lit "Text: {file_text}")
            initial_world)
     = Return None
  /\ last (trace (snd (@home_page
                         (canned (inl bad_archive) (inr (lit "no markers here")))
                         (sample_session sample_text (lit "text/plain")) true
                         initial_world))) st_empty
     = could_not_extract
  /\ last (trace (snd (@home_page (canned (inl bad_archive) (inl no_service))
                         (sample_session sample_text (lit "text/plain")) true
                         initial_world))) st_empty
     = could_not_extract.
Proof. repeat split; reflexivity. Qed.

(** Scenario 5 of the specification: the pages of a PDF in order, nothing
    between them. *)
Lemma pdf_scenario_5 :
  @process_file (canned (inl bad_archive) (inl no_service))
    sample_upload pdf_type initial_world
  = (Return (Some (lit "Page1Page2")), initial_world).
Proof. reflexivity. Qed.

(** * Further properties of the code *)

(** ** Where the payload starts *)

Lemma literal_ignorecase_chr (p : char) :
  literal_ignorecase p = Chr (marker_char p).
Proof.
  unfold marker_char, literal_ignorecase.
  destruct (is_ascii_letter p); reflexivity.
Qed.


Lemma option_map_add (k : nat) (x : option nat) :
  option_map S (option_map (Nat.add k) x) = option_map (Nat.add (S k)) x.
Proof. destruct x; reflexivity. Qed.

(** The literal part of the pattern takes a marker, and only a marker. *)
Lemma match_literal (p m : str) (re : regex) prev (s : str) :
  Forall2 (fun a c => marker_char a c = true) p m ->
  match_here (map literal_ignorecase p ++ re) prev (m ++ s)
  = option_map (Nat.add (length m)) (match_here re (last (map Some m) prev) s).
Proof.
  intros H. revert prev. induction H as [|a c p m Hac H IH]; intros prev.
  - cbn [map app length last]. destruct (match_here re prev s); reflexivity.
  - cbn [map app]. rewrite literal_ignorecase_chr, match_chr_cons, Hac, IH.
    rewrite option_map_add. cbn [length]. now rewrite last_cons_default.
Qed.

Lemma match_literal_inv (p : str) (re : regex) prev (s : str) (n : nat) :
  match_here (map literal_ignorecase p ++ re) prev s = Some n ->
  exists m rest,
    s = m ++ rest /\ Forall2 (fun a c => marker_char a c = true) p m.
Proof.
  revert prev s n. induction p as [|a p IH]; intros prev s n H.
  - exists [], s. split; [reflexivity|constructor].
  - cbn [map app] in H. rewrite literal_ignorecase_chr in H.
    destruct s as [|c s]; [discriminate H|].
    rewrite match_chr_cons in H. destruct (marker_char a c) eqn:Hac; [|discriminate H].
    destruct (match_here (map literal_ignorecase p ++ re) (Some c) s) as [k|] eqn:E;
      [|discriminate H].
    destruct (IH _ _ _ E) as (m & rest & -> & Hm).
    exists (c :: m), rest. split; [reflexivity|now constructor].
Qed.

Lemma match_dot_all prev (s : str) : match_here [Star dot_all] prev s = Some (length s).
Proof.
  pose proof (match_star_last dot_all prev s []) as H.
  rewrite app_nil_r in H. apply H; [clear H|exact I].
  induction s as [|c s IH]; [reflexivity|exact IH].
Qed.

Lemma markdown_re_at_marker prev (m body : str) :
  is_marker m ->
  match_here markdown_re prev (m ++ body) = Some (length m + length body)%nat.
Proof.
  intros Hm. unfold markdown_re. rewrite (match_literal _ _ _ _ _ Hm).
  now rewrite match_dot_all.
Qed.

Lemma markdown_re_needs_lt prev (c : char) (s : str) :
  c <> 60 -> match_here markdown_re prev (c :: s) = None.
Proof.
  intros Hc. rewrite markdown_re_atoms, match_chr_cons.
  now replace (60 =? c) with false by (symmetry; apply Z.eqb_neq; congruence).
Qed.

Lemma markdown_re_nil prev : match_here markdown_re prev [] = None.
Proof. reflexivity. Qed.

(** [re.search] passes over a prefix in which the pattern matches nowhere. *)
Lemma search_from_skip (re : regex) prev (pre s : str) :
  (forall a b, pre = a ++ b -> b <> [] ->
               match_here re (last (map Some a) prev) (b ++ s) = None) ->
  search_from re prev (pre ++ s)
  = match search_from re (last (map Some pre) prev) s with
    | Some (i, n) => Some ((length pre + i)%nat, n)
    | None => None
    end.
Proof.
  revert prev. induction pre as [|c pre IH]; intros prev H.
  - cbn [app map last length]. destruct (search_from re prev s) as [[i n]|]; reflexivity.
  - cbn [app search_from].
    assert (match_here re prev (c :: pre ++ s) = None) as ->
      by (apply (H [] (c :: pre) eq_refl); discriminate).
    rewrite IH.
    + cbn [map]. rewrite last_cons_default.
      destruct (search_from re (last (map Some pre) (Some c)) s) as [[i n]|];
        reflexivity.
    + intros a b -> Hb. specialize (H (c :: a) b eq_refl Hb).
      cbn [map] in H. now rewrite last_cons_default in H.
Qed.

(** What [re.search] finds is a match, at the place it says. *)
Lemma search_from_found (re : regex) prev (s : str) (i n : nat) :
  search_from re prev s = Some (i, n) ->
  exists pre rest,
    s = pre ++ rest /\ length pre = i
    /\ match_here re (last (map Some pre) prev) rest = Some n.
Proof.
  revert prev i. induction s as [|c s IH]; intros prev i H.
  - cbn [search_from] in H. destruct (match_here re prev []) as [k|] eqn:E;
      [|discriminate H].
    injection H as <- <-. now exists [], [].
  - cbn [search_from] in H. destruct (match_here re prev (c :: s)) as [k|] eqn:E.
    + injection H as <- <-. now exists [], (c :: s).
    + destruct (search_from re (Some c) s) as [[j k]|] eqn:F; [|discriminate H].
      injection H as <- <-. destruct (IH _ _ F) as (pre & rest & -> & <- & Hm).
      exists (c :: pre), rest. split; [reflexivity|]. split; [reflexivity|].
      cbn [map]. now rewrite last_cons_default.
Qed.

(** Where the pattern matches somewhere, [re.search] finds a match. *)
Lemma search_from_some (re : regex) prev (pre rest : str) (n : nat) :
  match_here re (last (map Some pre) prev) rest = Some n ->
  search_from re prev (pre ++ rest) <> None.
Proof.
  revert prev. induction pre as [|c pre IH]; intros prev H.
  - cbn [app map last] in *. destruct rest; cbn [search_from]; now rewrite H.
  - cbn [app search_from]. destruct (match_here re prev (c :: pre ++ rest)); [easy|].
    cbn [map] in H. rewrite last_cons_default in H.
    specialize (IH (Some c) H).
    destruct (search_from re (Some c) (pre ++ rest)) as [[i k]|]; easy.
Qed.

Lemma is_marker_length (m : str) : is_marker m -> length m = length opening_marker.
Proof. intros H. symmetry. exact (Forall2_length H). Qed.

(** X1. The text before the opening marker is dropped, the marker is found in
    any mix of cases, and all that follows it is the payload: for a response
    [pre ++ m ++ body] with no [<] in [pre] and [m] a marker, the result is
    [body], stripped and cleaned of quote prefixes. *)
Theorem parse_payload_after_marker (pre m body : str) :
  ~ In 60 pre -> is_marker m ->
  parse (pre ++ m ++ body) = Some (remove_block_quotes (strip body)).
Proof.
  intros Hpre Hm. unfold parse, re_search.
  rewrite search_from_skip.
  - assert (search_from markdown_re (last (map Some pre) None) (m ++ body)
            = Some (0%nat, (length m + length body)%nat)) as ->.
    { destruct (m ++ body) eqn:E; cbn [search_from]; rewrite <- E;
        now rewrite markdown_re_at_marker. }
    cbv zeta. rewrite Nat.add_0_r, <- (is_marker_length m Hm), skipn_exact2.
    replace (length m + length body - length m)%nat with (length body) by lia.
    now rewrite firstn_all.
  - intros a b -> Hb. destruct b as [|c b]; [contradiction|].
    cbn [app]. apply markdown_re_needs_lt. intros ->. apply Hpre.
    apply in_or_app. right. now left.
Qed.

(** The marker in capitals, in small letters or mixed is a marker. *)
Lemma marker_char_case (p c : char) :
  c = p \/ (97 <= p <= 122 /\ c = p - 32) -> marker_char p c = true.
Proof.
  unfold marker_char, literal_ignorecase, is_ascii_letter, ascii_lower, ignorecase_eq.
  intros [->|[Hp ->]].
  - destruct ((65 <=? p) && (p <=? 90)) eqn:Hup.
    + cbn [orb]. replace (p =? p + 32 - 32) with true
        by (symmetry; apply Z.eqb_eq; lia).
      now rewrite orb_true_r.
    + cbn [orb]. destruct ((97 <=? p) && (p <=? 122)).
      * now rewrite Z.eqb_refl.
      * apply Z.eqb_refl.
  - replace ((65 <=? p) && (p <=? 90)) with false
      by (symmetry; apply andb_false_iff; rewrite Z.leb_gt, Z.leb_gt; lia).
    replace ((97 <=? p) && (p <=? 122)) with true
      by (symmetry; apply andb_true_iff; rewrite !Z.leb_le; lia).
    cbn [orb]. rewrite Z.eqb_refl. now rewrite orb_true_r.
Qed.

(** The witness of X1: a sentence, the marker in mixed case, the payload. *)
Lemma parse_payload_after_marker_example :
  parse (lit "Sure! " ++ lit "<MarkDown>" ++ nl :: lit "Hello") = Some (lit "Hello").
Proof.
  refine (parse_payload_after_marker (lit "Sure! ") (lit "<MarkDown>")
            (nl :: lit "Hello") _ _).
  - vm_compute. intuition discriminate.
  - repeat constructor.
Defined.

(** X2. [parse] returns [None] exactly for the responses that hold no opening
    marker, in any mix of cases, anywhere. *)
Theorem parse_none_iff_no_marker (result : str) :
  parse result = None
  <-> ~ exists pre m post, result = pre ++ m ++ post /\ is_marker m.
Proof.
  unfold parse, re_search. split.
  - intros H (pre & m & post & -> & Hm).
    pose proof (markdown_re_at_marker (last (map Some pre) None) m post Hm) as Hmatch.
    apply (search_from_some _ None) in Hmatch.
    destruct (search_from markdown_re None (pre ++ m ++ post)) as [[i n]|];
      [discriminate H|now apply Hmatch].
  - intros H. destruct (search_from markdown_re None result) as [[i n]|] eqn:E;
      [|reflexivity].
    contradiction H.
    destruct (search_from_found _ _ _ _ _ E) as (pre & rest & -> & _ & Hmatch).
    destruct (match_literal_inv _ _ _ _ _ Hmatch) as (m & post & -> & Hm).
    now exists pre, m, post.
Qed.

(** ** Payloads without quote markers *)

Lemma match_star_chr_found (p q : char -> bool) (re : regex) prev (s : str)
  (n : nat) :
  match_here (Star p :: Chr q :: re) prev s = Some n ->
  exists c, In c s /\ q c = true.
Proof.
  revert prev n. induction s as [|c s IH]; intros prev n H.
  - rewrite match_star_nil in H. discriminate H.
  - rewrite match_star_cons in H.
    assert (match_here (Chr q :: re) prev (c :: s) = Some n ->
            exists c0, In c0 (c :: s) /\ q c0 = true) as Hchr.
    { rewrite match_chr_cons. destruct (q c) eqn:Hq; [|discriminate].
      intros _. exists c. split; [now left|exact Hq]. }
    destruct (p c); [|now apply Hchr].
    destruct (match_here (Star p :: Chr q :: re) (Some c) s) as [k|] eqn:E;
      [|now apply Hchr].
    destruct (IH _ _ E) as (c0 & Hin & Hq). exists c0. split; [now right|exact Hq].
Qed.

Lemma block_quote_match_needs_gt prev (s : str) :
  ~ In gt s -> match_here block_quote_re prev s = None.
Proof.
  intros Hgt. rewrite block_quote_re_bol. destruct (at_bol prev); [|reflexivity].
  destruct (match_here [Star isspace; Chr (Z.eqb gt); Star isspace] prev s)
    as [n|] eqn:E; [|reflexivity].
  destruct (match_star_chr_found _ _ _ _ _ _ E) as (c & Hin & Hc).
  apply Z.eqb_eq in Hc. subst c. contradiction.
Qed.

(** A text without quote markers passes the cleanup unchanged. *)
Lemma remove_block_quotes_no_gt (s : str) :
  ~ In gt s -> remove_block_quotes s = s.
Proof.
  unfold remove_block_quotes, re_sub. generalize (@None char) as prev.
  induction s as [|c s IH]; intros prev Hgt.
  - cbn [sub_scan]. now rewrite block_quote_match_needs_gt.
  - rewrite sub_scan_miss by now apply block_quote_match_needs_gt.
    f_equal. apply IH. intros Hin. apply Hgt. now right.
Qed.

Lemma In_lstrip (x : char) (s : str) : In x (lstrip s) -> In x s.
Proof.
  induction s as [|c s IH]; [easy|]. cbn [lstrip].
  destruct (isspace c); [|easy]. intros H. right. now apply IH.
Qed.

Lemma In_strip (x : char) (s : str) : In x (strip s) -> In x s.
Proof.
  unfold strip, rstrip. intros H.
  apply In_lstrip. apply in_rev. apply In_lstrip. now apply in_rev in H.
Qed.

(** X3. A payload without the character [>] is returned as it is, stripped of
    the whitespace around it: on text that is already clean the cleanup of
    line 111 changes nothing. *)
Theorem parse_clean_payload (pre m body : str) :
  ~ In 60 pre -> is_marker m -> ~ In gt body ->
  parse (pre ++ m ++ body) = Some (strip body).
Proof.
  intros Hpre Hm Hgt.
  assert (parse (pre ++ m ++ body) = Some (remove_block_quotes (strip body))) as ->.
  { unfold parse, re_search. rewrite search_from_skip.
    - assert (search_from markdown_re (last (map Some pre) None) (m ++ body)
              = Some (0%nat, (length m + length body)%nat)) as ->.
      { destruct (m ++ body) eqn:E; cbn [search_from]; rewrite <- E;
          now rewrite markdown_re_at_marker. }
      cbv zeta. rewrite Nat.add_0_r, <- (is_marker_length m Hm), skipn_exact2.
      replace (length m + length body - length m)%nat with (length body) by lia.
      now rewrite firstn_all.
    - intros a b -> Hb. destruct b as [|c b]; [contradiction|].
      cbn [app]. apply markdown_re_needs_lt. intros ->. apply Hpre.
      apply in_or_app. right. now left. }
  rewrite remove_block_quotes_no_gt; [reflexivity|].
  intros H. apply Hgt. now apply In_strip in H.
Qed.

(** The witness of X3. *)
Lemma parse_clean_payload_example :
  parse (lit "<markdown>" ++ lit "  Overview: fine.  ") = Some (lit "Overview: fine.").
Proof.
  refine (parse_clean_payload [] (lit "<markdown>") (lit "  Overview: fine.  ") _ _ _).
  - intros [].
  - repeat constructor.
  - vm_compute. intuition discriminate.
Defined.

(** ** The cleanup, line by line *)

Lemma match_star_chr_none (p q : char -> bool) (re : regex) prev (run : str)
  (c : char) (rest : str) :
  forallb p run = true -> (forall x, In x run -> q x = false) ->
  p c = false -> q c = false ->
  match_here (Star p :: Chr q :: re) prev (run ++ c :: rest) = None.
Proof.
  intros Hrun Hq Hp Hc. revert prev.
  induction run as [|x run IH]; intros prev.
  - cbn [app]. now rewrite match_star_cons, Hp, match_chr_cons, Hc.
  - cbn [forallb] in Hrun. apply andb_true_iff in Hrun as [Hx Hrun].
    cbn [app]. rewrite match_star_cons, Hx, IH.
    + rewrite match_chr_cons, (Hq x); [reflexivity|now left].
    + exact Hrun.
    + intros y Hy. apply Hq. now right.
Qed.

Lemma no_newline_spec (t : str) : no_newline t = true <-> ~ In nl t.
Proof.
  unfold no_newline. rewrite negb_true_iff. split.
  - intros H Hin. assert (existsb (Z.eqb nl) t = true) as E.
    { apply existsb_exists. exists nl. split; [exact Hin|apply Z.eqb_refl]. }
    congruence.
  - intros H. destruct (existsb (Z.eqb nl) t) eqn:E; [|reflexivity].
    apply existsb_exists in E as (x & Hin & Hx). apply Z.eqb_eq in Hx. subst x.
    contradiction.
Qed.

Lemma at_bol_last (t : str) prev :
  at_bol prev = false -> ~ In nl t -> at_bol (last (map Some t) prev) = false.
Proof.
  revert prev; induction t as [|c t IH]; intros prev Hprev Hnl; [exact Hprev|].
  cbn [map]. rewrite last_cons_default. apply IH.
  - cbn [at_bol]. apply Z.eqb_neq. intros ->. apply Hnl. now left.
  - intros Hin. apply Hnl. now right.
Qed.

(** Inside a line the scan copies up to the end of the line. *)
Lemma sub_scan_line (repl : str) prev (t rest : str) :
  at_bol prev = false -> ~ In nl t ->
  sub_scan block_quote_re repl 0 prev (t ++ rest)
  = t ++ sub_scan block_quote_re repl 0 (last (map Some t) prev) rest.
Proof.
  revert prev; induction t as [|c t IH]; intros prev Hbol Hnl; [reflexivity|].
  cbn [app]. rewrite sub_scan_miss by now rewrite block_quote_re_bol, Hbol.
  f_equal. cbn [map]. rewrite last_cons_default. apply IH.
  - cbn [at_bol]. apply Z.eqb_neq. intros ->. apply Hnl. now left.
  - intros Hin. apply Hnl. now right.
Qed.

Lemma lstrip_split (t : str) (c : char) (r : str) :
  lstrip t = c :: r ->
  exists ws, t = ws ++ c :: r /\ forallb isspace ws = true /\ isspace c = false.
Proof.
  induction t as [|x t IH]; [discriminate|]. cbn [lstrip].
  destruct (isspace x) eqn:Hx.
  - intros H. destruct (IH H) as (ws & -> & Hws & Hc).
    exists (x :: ws). cbn [forallb]. now rewrite Hx.
  - intros [= -> ->]. now exists [].
Qed.

Lemma isspace_not_gt (x : char) : isspace x = true -> (gt =? x) = false.
Proof.
  intros H. apply Z.eqb_neq. intros <-. discriminate H.
Qed.

(** One line of the payload, at the start of which the scan stands: the plain
    line is copied, the quoted line loses its prefix, and the scan is then
    inside the line, before [rest]. *)
Lemma sub_scan_one_line (l : line) prev (rest : str) :
  line_ok l = true -> at_bol prev = true ->
  exists prev',
    at_bol prev' = false
    /\ sub_scan block_quote_re [] 0 prev (render l ++ rest)
       = unquoted l ++ sub_scan block_quote_re [] 0 prev' rest.
Proof.
  intros Hok Hbol. destruct l as [t|ws sp t]; cbn [line_ok render unquoted] in *.
  - apply andb_true_iff in Hok as [Hnl Hhead]. apply no_newline_spec in Hnl.
    destruct (lstrip t) as [|c r] eqn:El; [discriminate Hhead|].
    apply negb_true_iff in Hhead.
    destruct (lstrip_split _ _ _ El) as (ws & Et & Hws & Hc).
    assert (match_here block_quote_re prev (t ++ rest) = None) as Hmiss.
    { rewrite block_quote_re_bol, Hbol, Et, <- app_assoc. cbn [app].
      apply match_star_chr_none; try assumption.
      - intros x Hx. apply isspace_not_gt.
        rewrite forallb_forall in Hws. now apply Hws.
      - rewrite Z.eqb_sym. exact Hhead. }
    destruct t as [|c0 t0]; [destruct ws; discriminate Et|].
    assert (c0 <> nl) as Hc0 by (intros ->; apply Hnl; now left).
    assert (~ In nl t0) as Ht0 by (intros Hin; apply Hnl; now right).
    exists (last (map Some t0) (Some c0)). split.
    + apply at_bol_last; [now apply Z.eqb_neq|exact Ht0].
    + cbn [app] in *. rewrite (sub_scan_miss _ _ _ _ _ Hmiss). f_equal.
      apply sub_scan_line; [now apply Z.eqb_neq|exact Ht0].
  - rewrite !andb_true_iff in Hok. destruct Hok as [[[Hws Hsp] Hnl] Hhead].
    apply no_newline_spec in Hnl.
    destruct t as [|c t']; [discriminate Hhead|]. apply negb_true_iff in Hhead.
    pose proof (block_quote_match prev ws sp ((c :: t') ++ rest) Hbol
                  (inline_space_isspace _ Hws) (inline_space_isspace _ Hsp) Hhead)
      as Hm.
    pose proof (last_after_marker ws sp prev) as Hl.
    assert (length ws + S (length sp) = length (ws ++ gt :: sp))%nat as El
      by (rewrite length_app; reflexivity).
    rewrite El in Hm.
    assert ((ws ++ gt :: sp ++ c :: t') ++ rest
            = (ws ++ gt :: sp) ++ (c :: t') ++ rest) as Es.
    { rewrite <- !app_assoc. cbn [app]. now rewrite <- app_assoc. }
    assert (ws ++ gt :: sp ++ (c :: t') ++ rest
            = (ws ++ gt :: sp) ++ (c :: t') ++ rest) as Es'
      by (rewrite <- app_assoc; reflexivity).
    rewrite Es' in Hm. rewrite Es.
    assert (at_bol (last (map Some sp) (Some gt)) = false) as Hin
      by (apply at_bol_inline; [discriminate|exact Hsp]).
    exists (last (map Some (c :: t')) (last (map Some sp) (Some gt))). split.
    + now apply at_bol_last.
    + destruct (ws ++ gt :: sp) as [|x m] eqn:Em; [destruct ws; discriminate Em|].
      cbn [app length] in Hm |- *.
      rewrite (sub_scan_hit _ _ _ _ _ _ Hm), Hl, app_nil_l.
      now apply (sub_scan_line [] _ (c :: t') rest).
Qed.

Lemma sub_scan_lines (ls : list line) prev :
  Forall (fun l => line_ok l = true) ls -> at_bol prev = true ->
  sub_scan block_quote_re [] 0 prev (join_lines (map render ls))
  = join_lines (map unquoted ls).
Proof.
  intros Hok. revert prev. induction Hok as [|l ls Hl Hls IH]; intros prev Hbol.
  - cbn [map join_lines sub_scan]. now rewrite block_quote_match_needs_gt.
  - destruct ls as [|l2 ls].
    + cbn [map join_lines].
      destruct (sub_scan_one_line l prev [] Hl Hbol) as (prev' & Hp & E).
      rewrite app_nil_r in E. rewrite E. cbn [sub_scan].
      rewrite block_quote_re_bol, Hp. apply app_nil_r.
    + change (join_lines (map render (l :: l2 :: ls)))
        with (render l ++ nl :: join_lines (map render (l2 :: ls))).
      change (join_lines (map unquoted (l :: l2 :: ls)))
        with (unquoted l ++ nl :: join_lines (map unquoted (l2 :: ls))).
      destruct (sub_scan_one_line l prev
                  (nl :: join_lines (map render (l2 :: ls))) Hl Hbol)
        as (prev' & Hp & E).
      rewrite E. f_equal.
      rewrite sub_scan_miss by now rewrite block_quote_re_bol, Hp.
      f_equal. now apply IH.
Qed.

(** X4. The cleanup of line 111 works line by line on a payload in which every
    line has text ([line_ok]): a plain line holds a character that is not
    whitespace and the first such character is no quote marker; a quoted line
    is whitespace of the line, one quote marker, whitespace of the line and
    then a text that is not empty and does not start with whitespace. Every
    quoted line loses its prefix, and every plain line, like the text behind
    each prefix, stays as it is. A line that is a marker and nothing else is
    not such a line: there the removal runs over the line break
    ([bare_marker_joins_lines]). *)
Theorem remove_block_quotes_by_line (ls : list line) :
  Forall (fun l => line_ok l = true) ls ->
  remove_block_quotes (join_lines (map render ls)) = join_lines (map unquoted ls).
Proof.
  intros Hok. unfold remove_block_quotes, re_sub.
  now apply sub_scan_lines.
Qed.

(** The witness of X4: a quoted line, a plain one, an indented quoted one whose
    text opens with a further marker. *)
Lemma remove_block_quotes_by_line_example :
  remove_block_quotes
    (lit "> quoted line" ++ nl :: lit "plain > line" ++ nl :: lit "  >>nested")
  = lit "quoted line" ++ nl :: lit "plain > line" ++ nl :: lit ">nested".
Proof.
  refine (remove_block_quotes_by_line
            [Quoted [] (lit " ") (lit "quoted line"); Plain (lit "plain > line");
             Quoted (lit "  ") [] (lit ">nested")] _).
  repeat constructor.
Defined.

(** ** [process_file]: every way out *)

(** X5. [process_file] never raises. It returns a text, reports nothing and
    leaves the temporary files as they were; or it returns [None] and has
    reported exactly one error, the temporary files being as before as well
    unless the upload was declared EPUB and [epub.read_epub] raised, in which
    case one file more is there. It never calls the service. *)
Theorem process_file_every_outcome {collaborators : Collaborators}
  (file_content : bytes) (file_type : str) (w : world) :
  (exists full_text,
      process_file file_content file_type w = (Return (Some full_text), w))
  \/ (exists e,
        process_file file_content file_type w
        = (Return None, World (temp_files w) (trace w ++ [extraction_error e])))
  \/ (exists e,
        file_type = epub_type /\ read_epub file_content = inl e
        /\ process_file file_content file_type w
           = (Return None,
              World ((fresh_path (temp_files w), file_content) :: temp_files w)
                (trace w ++ [extraction_error e]))).
Proof.
  destruct (str_eqb file_type pdf_type) eqn:Hpdf.
  - apply str_eqb_eq in Hpdf. subst. rewrite process_file_pdf.
    destruct (pdf_pages file_content) as [e|doc].
    + right. left. now exists e.
    + left. now exists (concat doc).
  - destruct (str_eqb file_type epub_type) eqn:Hepub.
    + apply str_eqb_eq in Hepub. subst. rewrite process_file_epub.
      destruct (read_epub file_content) as [e|book] eqn:E.
      * right. right. now exists e.
      * left. eexists. reflexivity.
    + rewrite process_file_txt by assumption.
      destruct (decode file_content) as [s|].
      * left. now exists s.
      * right. left. eexists. reflexivity.
Qed.

(** X6. PDF: the text is the text of the pages in page order with nothing put
    between them, and nothing else changes; when the library raises, no text,
    not even that of the pages before the bad one, is returned, and the error is
    reported. *)
Theorem pdf_extraction {collaborators : Collaborators}
  (file_content : bytes) (w : world) :
  (forall doc : list str,
      pdf_pages file_content = inr doc ->
      process_file file_content pdf_type w = (Return (Some (concat doc)), w))
  /\ (forall e : exn,
         pdf_pages file_content = inl e ->
         process_file file_content pdf_type w
         = (Return None, World (temp_files w) (trace w ++ [extraction_error e]))).
Proof.
  rewrite process_file_pdf. split.
  - intros doc H. now rewrite H.
  - intros e H. now rewrite H.
Qed.

(** The witness of X6: scenario 5 of the specification. *)
Lemma pdf_extraction_example :
  @process_file (canned (inl bad_archive) (inl no_service))
    sample_upload pdf_type initial_world
  = (Return (Some (lit "Page1Page2")), initial_world).
Proof.
  destruct (@pdf_extraction (canned (inl bad_archive) (inl no_service))
              sample_upload initial_world) as [H _].
  exact (H [lit "Page1"; lit "Page2"] eq_refl).
Defined.

(** X7. A plain-text upload of ASCII octets only is returned octet for octet. *)
Theorem ascii_text_extraction {collaborators : Collaborators}
  (file_content : bytes) (file_type : str) (w : world) :
  str_eqb file_type pdf_type = false ->
  str_eqb file_type epub_type = false ->
  Forall (fun b => byte_val b < 128) file_content ->
  process_file file_content file_type w
  = (Return (Some (map byte_val file_content)), w).
Proof.
  intros Hpdf Hepub Hascii. rewrite (process_file_txt _ _ _ Hpdf Hepub).
  assert (decode file_content = Some (map byte_val file_content)) as ->;
    [|reflexivity].
  unfold decode. induction Hascii as [|b bs Hb Hbs IH]; [reflexivity|].
  cbn [map]. rewrite decode_1 by exact Hb. now rewrite IH.
Qed.

(** The witness of X7. *)
Lemma ascii_text_extraction_example :
  @process_file (canned (inl bad_archive) (inl no_service))
    [x48; x69; x0a] (lit "text/plain") initial_world
  = (Return (Some (lit "Hi" ++ [nl])), initial_world).
Proof.
  refine (@ascii_text_extraction (canned (inl bad_archive) (inl no_service))
            [x48; x69; x0a] (lit "text/plain") initial_world eq_refl eq_refl _).
  repeat constructor.
Defined.

(** ** The Home page from upload to lessons *)

(** X8. A run of the Home page with a fresh upload, whose text is extracted,
    the button pressed, the service answering with a payload: the text is
    shown, one remote call is made, with the key typed in the sidebar and the
    session's template in which the text stands for the placeholder, and the
    lessons of the answer are shown under the success message. Without the
    button the run ends after showing the text. *)
Theorem home_page_success {collaborators : Collaborators}
  (ss : session) (file_content : bytes) (media_type key_input : str)
  (w w1 : world) (full_text result lessons : str) :
  file_content <> [] ->
  process_file file_content media_type w = (Return (Some full_text), w1) ->
  gemini key_input (assemble (custom_prompt ss) full_text) = inr result ->
  parse result = Some lessons ->
  home_page (sidebar ss (Some (file_content, media_type)) key_input) true w
  = (Return tt,
     World (temp_files w1)
       (trace w1
        ++ [st_write (Some full_text); st_empty; extracting;
            remote_call key_input (assemble (custom_prompt ss) full_text);
            st_empty; st_success (lit "Key lessons extracted!");
            st_markdown lessons]))
  /\ home_page (sidebar ss (Some (file_content, media_type)) key_input) false w
     = (Return tt, World (temp_files w1) (trace w1 ++ [st_write (Some full_text)])).
Proof.
  intros Hne Hpf Hg Hp.
  set (ss' := sidebar ss (Some (file_content, media_type)) key_input).
  assert (uploaded_file_content ss' = Some file_content) as Hup by reflexivity.
  assert (process_file file_content (file_type ss') w
          = (Return (Some full_text), w1)) as Hpf' by exact Hpf.
  split.
  - rewrite (home_page_extracted ss' true w w1 file_content (Some full_text)
               Hup Hne Hpf').
    unfold bind, emit. cbn [temp_files trace].
    rewrite get_key_ideas_text.
    change (api_key ss') with key_input.
    change (custom_prompt ss') with (custom_prompt ss).
    rewrite Hg, Hp. cbn [temp_files trace]. rewrite <- !app_assoc. reflexivity.
  - now rewrite (home_page_extracted ss' false w w1 file_content (Some full_text)
                   Hup Hne Hpf').
Qed.

(** The witness of X8: a text file, the template of scenario 4, an answer in
    block quotes. *)
Lemma home_page_success_example :
  @home_page (canned (inl bad_archive) (inr (lit "<markdown>> Be kind.")))
    (sidebar (sample_session sample_garbage pdf_type)
       (Some (sample_text, lit "text/plain")) (lit "k1"))
    true initial_world
  = (Return tt,
     World []
       [st_write (Some [104; 233]); st_empty; extracting;
        remote_call (lit "k1") (lit "Text: " ++ [104; 233]);
        st_empty; st_success (lit "Key lessons extracted!");
        st_markdown (lit "Be kind.")]).
Proof.
  destruct (@home_page_success
              (canned (inl bad_archive) (inr (lit "<markdown>> Be kind.")))
              (sample_session sample_garbage pdf_type)
              sample_text (lit "text/plain") (lit "k1")
              initial_world initial_world [104; 233]
              (lit "<markdown>> Be kind.") (lit "Be kind.")
              ltac:(discriminate) eq_refl eq_refl eq_refl)
    as [H _].
  exact H.
Defined.

(** X9. Whatever the session, the upload and the answers of the libraries and
    the service: one run of the Home page calls the service at most once, and
    not at all when the button was not pressed. *)
Theorem home_page_calls_service_at_most_once {collaborators : Collaborators}
  (ss : session) (extract_lessons : bool) (w : world) :
  exists evs,
    trace (snd (home_page ss extract_lessons w)) = trace w ++ evs
    /\ (length (filter is_remote_call evs) <= 1)%nat
    /\ (extract_lessons = false -> filter is_remote_call evs = []).
Proof.
  destruct (uploaded_file_content ss) as [[|b rest]|] eqn:Hup.
  - unfold home_page. rewrite Hup. eexists. split; [reflexivity|].
    split; [cbn; lia|reflexivity].
  - assert (b :: rest <> []) as Hne by discriminate.
    destruct (process_file_outcome (b :: rest) (file_type ss) w)
      as [(text & fs & Hpf)|(e & fs & Hpf)].
    + rewrite (home_page_extracted ss extract_lessons w _ _ _ Hup Hne Hpf).
      destruct extract_lessons.
      * unfold bind, emit. cbn [temp_files trace]. rewrite get_key_ideas_text.
        destruct (gemini (api_key ss) (assemble (custom_prompt ss) text))
          as [err|result].
        -- cbn [snd trace temp_files]. rewrite <- !app_assoc. cbn [app].
           eexists. split; [reflexivity|]. split; [cbn; lia|discriminate].
        -- destruct (parse result) as [lessons|];
             cbn [snd trace temp_files]; rewrite <- !app_assoc; cbn [app];
             eexists; (split; [reflexivity|]); (split; [cbn; lia|discriminate]).
      * cbn [snd trace ret]. eexists. split; [reflexivity|].
        split; [cbn; lia|reflexivity].
    + rewrite (home_page_extracted ss extract_lessons w _ _ _ Hup Hne Hpf).
      destruct extract_lessons.
      * unfold bind, emit. cbn [temp_files trace].
        rewrite get_key_ideas_no_text. cbn [snd trace].
        rewrite <- !app_assoc. cbn [app].
        eexists. split; [reflexivity|]. split; [cbn; lia|discriminate].
      * cbn [snd trace ret]. rewrite <- !app_assoc. cbn [app].
        eexists. split; [reflexivity|]. split; [cbn; lia|reflexivity].
  - unfold home_page. rewrite Hup. eexists. split; [reflexivity|].
    split; [cbn; lia|reflexivity].
Qed.

Lemma assemble_no_placeholder (template file_text : str) :
  occurrences placeholder template = 0%nat -> assemble template file_text = template.
Proof.
  intros H. rewrite assemble_scan.
  pose proof (replace_scan_find 123 (lit "file_text}") file_text template) as R.
  cbv zeta in R.
  rewrite (occurrences_zero_find 123 (lit "file_text}") template H) in R.
  exact R.
Qed.

(** X10. With a template that holds no placeholder the prompt sent to the
    service is the template itself: the document's text does not reach the
    model, and nothing reports it. *)
Theorem template_without_placeholder {collaborators : Collaborators}
  (file_text api_key prompt : str) (w : world) :
  occurrences placeholder prompt = 0%nat ->
  exists key_ideas evs,
    get_key_ideas (Some file_text) api_key prompt w
    = (Return key_ideas,
       World (temp_files w) (trace w ++ remote_call api_key prompt :: evs))
    /\ Forall (fun ev => exists e, ev = call_error e) evs.
Proof.
  intros H. rewrite get_key_ideas_text, (assemble_no_placeholder _ _ H).
  destruct (gemini api_key prompt) as [e|result].
  - exists None, [call_error e]. split; [reflexivity|].
    constructor; [now exists e|constructor].
  - exists (parse result), []. split; [reflexivity|constructor].
Qed.

(** The witness of X10: the template lost its placeholder; the call carries the
    template and not the text. *)
Lemma template_without_placeholder_example :
  exists key_ideas evs,
    @get_key_ideas (canned (inl bad_archive) (inr (lit "<markdown>ok")))
      (Some (lit "the whole book")) (lit "k1") (lit "Summarise: {file text}")
      initial_world
    = (Return key_ideas,
       World [] ([] ++ remote_call (lit "k1") (lit "Summarise: {file text}") :: evs))
    /\ Forall (fun ev => exists e, ev = call_error e) evs.
Proof.
  apply (@template_without_placeholder
           (canned (inl bad_archive) (inr (lit "<markdown>ok")))
           (lit "the whole book") (lit "k1") (lit "Summarise: {file text}")
           initial_world).
  reflexivity.
Defined.

(** ** The Prompt page *)

(** X11. The Prompt page changes nothing of the session but the template, and
    that only when Save is pressed: the next extraction on the Home page then
    sends the edited template with the document's text in it, while an edit
    that was not saved is not used. *)
Theorem prompt_page_then_home_page {collaborators : Collaborators}
  (ss : session) (edited : str) (save : bool) (w0 : world) :
  exists ss',
    fst (prompt_page ss edited save w0) = Return ss'
    /\ uploaded_file_content ss' = uploaded_file_content ss
    /\ file_type ss' = file_type ss
    /\ api_key ss' = api_key ss
    /\ custom_prompt ss' = (if save then edited else custom_prompt ss)
    /\ forall (w w1 : world) (file_content : bytes) (full_text : str),
        uploaded_file_content ss = Some file_content -> file_content <> [] ->
        process_file file_content (file_type ss) w = (Return (Some full_text), w1) ->
        In (remote_call (api_key ss)
              (assemble (if save then edited else custom_prompt ss) full_text))
           (trace (snd (home_page ss' true w))).
Proof.
  exists (if save
          then Session (uploaded_file_content ss) (file_type ss) (api_key ss) edited
          else ss).
  split; [destruct save; reflexivity|].
  split; [destruct save; reflexivity|].
  split; [destruct save; reflexivity|].
  split; [destruct save; reflexivity|].
  split; [destruct save; reflexivity|].
  intros w w1 file_content full_text Hup Hne Hpf.
  set (ss' := if save then _ else ss).
  assert (uploaded_file_content ss' = Some file_content) as Hup'
    by (subst ss'; destruct save; exact Hup).
  assert (process_file file_content (file_type ss') w
          = (Return (Some full_text), w1)) as Hpf'
    by (subst ss'; destruct save; exact Hpf).
  rewrite (home_page_extracted ss' true w w1 file_content (Some full_text)
             Hup' Hne Hpf').
  unfold bind, emit. cbn [temp_files trace]. rewrite get_key_ideas_text.
  replace (api_key ss') with (api_key ss) by (subst ss'; now destruct save).
  replace (custom_prompt ss') with (if save then edited else custom_prompt ss)
    by (subst ss'; now destruct save).
  destruct (gemini (api_key ss)
              (assemble (if save then edited else custom_prompt ss) full_text))
    as [e|result].
  - cbn [snd trace temp_files]. rewrite <- !app_assoc.
    apply in_or_app. right. cbn. tauto.
  - destruct (parse result); cbn [snd trace temp_files]; rewrite <- !app_assoc;
      apply in_or_app; right; cbn; tauto.
Qed.

(** The witness of X11: the template is replaced and saved, and the next
    extraction sends the new one. *)
Lemma prompt_page_then_home_page_example :
  exists ss',
    fst (prompt_page (sample_session sample_text (lit "text/plain"))
           (lit "Shorten: {file_text}") true initial_world)
    = Return ss'
    /\ In (remote_call (lit "secret") (lit "Shorten: " ++ [104; 233]))
         (trace (snd (@home_page
                        (canned (inl bad_archive) (inr (lit "<markdown>ok")))
                        ss' true initial_world))).
Proof.
  destruct (@prompt_page_then_home_page
              (canned (inl bad_archive) (inr (lit "<markdown>ok")))
              (sample_session sample_text (lit "text/plain"))
              (lit "Shorten: {file_text}") true initial_world)
    as (ss' & Hrun & _ & _ & _ & _ & Hcall).
  exists ss'. split; [exact Hrun|].
  apply (Hcall initial_world initial_world sample_text [104; 233]).
  - reflexivity.
  - discriminate.
  - reflexivity.
Defined.

(** X12. With no document in the session, or after the upload of an empty
    file, a run of the Home page only asks for a file, button or not: nothing
    is extracted, no file is written and the service is not called. *)
Theorem home_page_without_document {collaborators : Collaborators}
  (ss : session) (media_type key_input : str) (extract_lessons : bool) (w : world) :
  (uploaded_file_content ss = None ->
   home_page (sidebar ss None key_input) extract_lessons w
   = (Return tt,
      World (temp_files w)
        (trace w
         ++ [st_write
               (Some (lit "Please upload a PDF, TXT, or EPUB file using the sidebar."))])))
  /\ home_page (sidebar ss (Some ([], media_type)) key_input) extract_lessons w
     = (Return tt,
        World (temp_files w)
          (trace w
           ++ [st_write
                 (Some (lit "Please upload a PDF, TXT, or EPUB file using the sidebar."))])).
Proof.
  split.
  - intros H. unfold home_page, sidebar. cbn [uploaded_file_content].
    now rewrite H.
  - reflexivity.
Qed.

(** The witness of X12: an empty upload replaces the document of the
    session. *)
Lemma home_page_without_document_example :
  @home_page (canned (inl bad_archive) (inr (lit "<markdown>ok")))
    (sidebar (sample_session sample_text (lit "text/plain"))
       (Some ([], lit "text/plain")) (lit "k1"))
    true initial_world
  = (Return tt,
     World []
       [st_write
          (Some (lit "Please upload a PDF, TXT, or EPUB file using the sidebar."))]).
Proof.
  destruct (@home_page_without_document
              (canned (inl bad_archive) (inr (lit "<markdown>ok")))
              (sample_session sample_text (lit "text/plain"))
              (lit "text/plain") (lit "k1") true initial_world) as [_ H].
  exact H.
Defined.

(** * The reports of a failed parse and of a failed call *)

(** Claim C7. After a successful extraction and with the button pressed, a
    response without the payload and a failed remote call are reported
    differently, so that the two can be told apart from what the run shows:
    when parsing finds no payload the only error shown is
    [could_not_extract], and no report of a failed call ([is_call_error]) is
    among the events of the run, although the call was made; when the call
    fails the errors shown are the [call_error] with the exception, then
    [could_not_extract], so a report of a failed call is among the events. *)
Theorem parse_failure_told_apart_from_call_failure
  {collaborators : Collaborators}
  (ss : session) (w w1 : world) (file_content : bytes) (full_text : str) :
  uploaded_file_content ss = Some file_content -> file_content <> [] ->
  process_file file_content (file_type ss) w = (Return (Some full_text), w1) ->
  (forall result : str,
      gemini (api_key ss) (assemble (custom_prompt ss) full_text) = inr result ->
      parse result = None ->
      exists evs,
        trace (snd (home_page ss true w)) = trace w1 ++ evs
        /\ In (remote_call (api_key ss) (assemble (custom_prompt ss) full_text)) evs
        /\ filter is_st_error evs = [could_not_extract]
        /\ existsb is_call_error evs = false)
  /\ (forall e : exn,
         gemini (api_key ss) (assemble (custom_prompt ss) full_text) = inl e ->
         exists evs,
           trace (snd (home_page ss true w)) = trace w1 ++ evs
           /\ filter is_st_error evs = [call_error e; could_not_extract]
           /\ existsb is_call_error evs = true).
Proof.
  intros Hup Hne Hpf.
  destruct (parse_failure_reported_as_call_failure ss w w1 file_content full_text
              Hup Hne Hpf) as [Hparse Hcall].
  split.
  - intros result Hg Hp. destruct (Hparse result Hg Hp) as [_ Hrun].
    rewrite Hrun. eexists. split; [reflexivity|].
    split; [cbn; tauto|]. split; reflexivity.
  - intros e Hg. destruct (Hcall e Hg) as [_ Hrun].
    rewrite Hrun. eexists. split; [reflexivity|]. split; reflexivity.
Qed.

(** The witness of claim C7: the same upload, template and key with a service
    that answers scenario 2's response. *)
Lemma parse_failure_told_apart_example :
  exists evs,
    trace (snd (@home_page (canned (inl bad_archive) (inr (lit "no markers here")))
                  (sample_session sample_text (lit "text/plain")) true
                  initial_world))
    = trace initial_world ++ evs
    /\ In (remote_call (lit "secret") (lit "Text: " ++ [104; 233])) evs
    /\ filter is_st_error evs = [could_not_extract]
    /\ existsb is_call_error evs = false.
Proof.
  destruct (@parse_failure_told_apart_from_call_failure
              (canned (inl bad_archive) (inr (lit "no markers here")))
              (sample_session sample_text (lit "text/plain"))
              initial_world initial_world sample_text [104; 233]
              eq_refl ltac:(discriminate) eq_refl) as [Hparse _].
  exact (Hparse (lit "no markers here") eq_refl eq_refl).
Defined.

(** The same run with a service that cannot be reached shows the report of the
    failed call. *)
Lemma call_failure_told_apart_example :
  existsb is_call_error
    (trace (snd (@home_page (canned (inl bad_archive) (inl no_service))
                   (sample_session sample_text (lit "text/plain")) true
                   initial_world)))
  = true.
Proof. reflexivity. Qed.

(** * Nested quote markers in a payload of several lines *)

Lemma match_here_length (re : regex) prev (s : str) (n : nat) :
  match_here re prev s = Some n -> (n <= length s)%nat.
Proof.
  revert prev s n. induction re as [|[p|p|] re IH]; intros prev s n H.
  - injection H as <-. apply Nat.le_0_l.
  - destruct s as [|c s]; [discriminate H|]. rewrite match_chr_cons in H.
    destruct (p c); [|discriminate H].
    destruct (match_here re (Some c) s) as [k|] eqn:E; [|discriminate H].
    injection H as <-. apply IH in E. cbn [length]. lia.
  - revert prev n H. induction s as [|c s IHs]; intros prev n H.
    + rewrite match_star_nil in H. now apply IH in H.
    + rewrite match_star_cons in H. destruct (p c).
      * destruct (match_here (Star p :: re) (Some c) s) as [k|] eqn:E.
        -- injection H as <-. apply IHs in E. cbn [length]. lia.
        -- now apply IH in H.
      * now apply IH in H.
  - cbn [match_here] in H. destruct (at_bol prev); [|discriminate H].
    now apply IH in H.
Qed.

Lemma block_quote_re_nil prev : match_here block_quote_re prev [] = None.
Proof. apply block_quote_match_needs_gt. intros []. Qed.

(** The scan of a text [X] in front of a text [S], when no match that starts
    in [X] depends on [S]: it is the scan of [X] alone, and the scan of [S]
    goes on from the end of [X]. *)
Lemma sub_scan_context (X S : str) :
  forall prev,
    (forall X1 X2, X = X1 ++ X2 -> X2 <> [] ->
        match_here block_quote_re (last (map Some X1) prev) (X2 ++ S)
        = match_here block_quote_re (last (map Some X1) prev) X2) ->
    forall k, (k <= length X)%nat ->
      sub_scan block_quote_re [] k prev (X ++ S)
      = sub_scan block_quote_re [] k prev X
        ++ sub_scan block_quote_re [] 0 (last (map Some X) prev) S.
Proof.
  induction X as [|a X IH]; intros prev Hsafe k Hk.
  - assert (k = 0%nat) as -> by (cbn [length] in Hk; lia).
    cbn [app map last]. cbn [sub_scan]. now rewrite block_quote_re_nil.
  - assert (forall X1 X2, X = X1 ++ X2 -> X2 <> [] ->
              match_here block_quote_re (last (map Some X1) (Some a)) (X2 ++ S)
              = match_here block_quote_re (last (map Some X1) (Some a)) X2)
      as Hsafe'.
    { intros X1 X2 -> HX2. specialize (Hsafe (a :: X1) X2 eq_refl HX2).
      cbn [map] in Hsafe. now rewrite last_cons_default in Hsafe. }
    cbn [map]. rewrite last_cons_default.
    destruct k as [|k].
    + pose proof (Hsafe [] (a :: X) eq_refl ltac:(discriminate)) as Hm.
      cbn [map last] in Hm. cbn [app sub_scan]. cbn [app] in Hm. rewrite Hm.
      destruct (match_here block_quote_re prev (a :: X)) as [[|n]|] eqn:E.
      * cbn [app]. f_equal. apply (IH _ Hsafe'). apply Nat.le_0_l.
      * cbn [app]. apply (IH _ Hsafe'). apply match_here_length in E.
        cbn [length] in E. lia.
      * cbn [app]. f_equal. apply (IH _ Hsafe'). apply Nat.le_0_l.
    + cbn [app sub_scan]. apply (IH _ Hsafe'). cbn [length] in Hk. lia.
Qed.


Lemma lstrip_nil (s : str) : lstrip s = [] -> forallb isspace s = true.
Proof.
  induction s as [|x s IH]; [reflexivity|]. cbn [lstrip forallb].
  destruct (isspace x); [exact IH|discriminate].
Qed.


Lemma match_star_chr_eq (p q : char -> bool) (re : regex) prev (run : str)
  (c : char) (rest : str) :
  forallb p run = true -> (forall x, In x run -> q x = false) ->
  p c = false -> q c = true ->
  match_here (Star p :: Chr q :: re) prev (run ++ c :: rest)
  = option_map (fun n => (length run + S n)%nat) (match_here re (Some c) rest).
Proof.
  intros Hrun Hq Hp Hc. revert prev.
  induction run as [|x run IH]; intros prev.
  - cbn [app length]. rewrite match_star_cons, Hp, match_chr_cons, Hc.
    destruct (match_here re (Some c) rest); reflexivity.
  - cbn [forallb] in Hrun. apply andb_true_iff in Hrun as [Hx Hrun].
    cbn [app]. rewrite match_star_cons, Hx, IH.
    + destruct (match_here re (Some c) rest); [reflexivity|].
      cbn [option_map]. rewrite match_chr_cons, (Hq x); [reflexivity|now left].
    + exact Hrun.
    + intros y Hy. apply Hq. now right.
Qed.

Section NestedLine.

Variables (c : char) (ws R : str).
Hypothesis Hc : isspace c = false.
Hypothesis Hind : c <> gt \/ ws = [].
Hypothesis Hws : forallb isspace ws = true.



End NestedLine.









(** An indented line with nested markers in the middle of a payload. *)
Lemma parse_nested_markers_indented :
  parse (lit "<markdown>" ++ lit "intro" ++ nl :: lit "  > > text" ++ nl
         :: lit "end")
  = Some (lit "intro" ++ nl :: lit "> text" ++ nl :: lit "end").
Proof. reflexivity. Qed.

(** A line that is a marker and nothing else: the removal runs over the line
    break, and the two lines become one. *)
Lemma bare_marker_joins_lines :
  remove_block_quotes (gt :: nl :: lit "> x") = lit "x"
  /\ remove_block_quotes (lit "> a" ++ nl :: gt :: nl :: lit "> b")
     = lit "a" ++ nl :: lit "b".
Proof. split; reflexivity. Qed.

(** ** The second marker stays in every context *)

Lemma star_space_stop (Y : str) (c : char) (T S : str) prev :
  isspace c = false ->
  match_here [Star isspace] prev ((Y ++ c :: T) ++ S)
  = match_here [Star isspace] prev (Y ++ c :: T).
Proof.
  intros Hc. revert prev. induction Y as [|y Y IH]; intros prev.
  - cbn [app]. now rewrite !match_star_cons, Hc.
  - cbn [app]. rewrite !match_star_cons. destruct (isspace y); [|reflexivity].
    now rewrite IH.
Qed.

Lemma star_space_run (run : str) (B : str) prev :
  forallb isspace run = true ->
  match_here [Star isspace] prev (run ++ gt :: B)
  = match_here [Star isspace] prev run.
Proof.
  intros Hrun.
  rewrite (match_star_last isspace prev run (gt :: B) Hrun eq_refl).
  pose proof (match_star_last isspace prev run [] Hrun I) as H.
  rewrite app_nil_r in H. now rewrite H.
Qed.

Lemma forallb_app_r {A} (p : A -> bool) (l r : list A) :
  forallb p (l ++ r) = true -> forallb p r = true.
Proof. rewrite forallb_app. now intros [_ H]%andb_true_iff. Qed.

Lemma at_bol_after_marker (sp1 : str) prev :
  forallb inline_space sp1 = true ->
  at_bol (last (map Some (gt :: sp1)) prev) = false.
Proof.
  intros H. cbn [map]. rewrite last_cons_default.
  apply at_bol_inline; [discriminate|exact H].
Qed.

(** No match that starts before the second of two markers of a line reaches
    it or depends on what follows it. *)
Lemma second_marker_safe (A sp B : str) prev (X1 X2 : str) :
  forallb inline_space sp = true ->
  A ++ gt :: sp = X1 ++ X2 -> X2 <> [] ->
  match_here block_quote_re (last (map Some X1) prev) (X2 ++ gt :: B)
  = match_here block_quote_re (last (map Some X1) prev) X2.
Proof.
  intros Hsp E HX2.
  assert ((exists Y, X2 = Y ++ gt :: sp)
          \/ (exists sp1, X1 = A ++ gt :: sp1 /\ sp = sp1 ++ X2)) as [[Y ->]|HX].
  { apply app_eq_app in E as [l [[-> ->]|[-> E]]].
    - left. now exists l.
    - destruct l as [|x l]; cbn [app] in E.
      + left. exists []. now subst.
      + injection E as <- ->. right. now exists l. }
  - rewrite !block_quote_re_bol.
    destruct (at_bol (last (map Some X1) prev)); [|reflexivity].
    destruct (lstrip (Y ++ gt :: sp)) as [|d X4] eqn:El.
    { apply lstrip_nil in El. rewrite forallb_forall in El.
      assert (isspace gt = true) as F
        by (apply El, in_or_app; right; now left).
      discriminate F. }
    destruct (lstrip_split _ _ _ El) as (run & Es & Hrun & Hd).
    assert (forall x, In x run -> (gt =? x) = false) as Hq.
    { intros x Hx. apply isspace_not_gt. rewrite forallb_forall in Hrun.
      now apply Hrun. }
    rewrite Es, <- app_assoc. cbn [app].
    destruct (gt =? d) eqn:Hgt.
    + rewrite !match_star_chr_eq by assumption. f_equal.
      assert (Y ++ gt :: sp = (run ++ [d]) ++ X4) as Es'
        by (rewrite Es, <- app_assoc; reflexivity).
      apply app_eq_app in Es' as [l [[_ E4]|[_ E4]]].
      * subst X4. now apply star_space_stop.
      * destruct l as [|x l]; cbn [app] in E4.
        -- subst X4. apply (star_space_stop [] gt sp). reflexivity.
        -- injection E4 as _ E4.
           assert (forallb isspace X4 = true) as H4.
           { apply inline_space_isspace in Hsp. rewrite E4 in Hsp.
             now apply forallb_app_r in Hsp. }
           now apply star_space_run.
    + now rewrite !match_star_chr_none by (assumption || (now rewrite Hq)).
  - destruct HX as (sp1 & -> & Esp).
    assert (forallb inline_space sp1 = true) as H1.
    { rewrite Esp, forallb_app in Hsp. now apply andb_true_iff in Hsp as [H1 _]. }
    rewrite map_app.
    assert (forall (l r : list (option char)) d, r <> [] -> last (l ++ r) d = last r d)
      as Hlast.
    { intros l r d Hr. destruct r as [|x r]; [contradiction|].
      induction l as [|y l IH]; [reflexivity|].
      cbn [app]. destruct l; exact IH. }
    rewrite Hlast by discriminate.
    rewrite !block_quote_re_bol, (at_bol_after_marker sp1 prev H1). reflexivity.
Qed.

(** In every payload the second of two quote markers of a line, with only
    whitespace of the line between them, stays: the text up to it is cleaned
    as if it stood alone, then comes the marker. *)
Lemma second_marker_stays (A sp B : str) :
  forallb inline_space sp = true ->
  remove_block_quotes (A ++ gt :: sp ++ gt :: B)
  = remove_block_quotes (A ++ gt :: sp)
    ++ gt :: sub_scan block_quote_re [] 0 (Some gt) B.
Proof.
  intros Hsp. unfold remove_block_quotes, re_sub.
  assert (A ++ gt :: sp ++ gt :: B = (A ++ gt :: sp) ++ gt :: B) as ->
    by (rewrite <- app_assoc; reflexivity).
  rewrite (sub_scan_context (A ++ gt :: sp) (gt :: B) None).
  - f_equal. apply sub_scan_miss.
    rewrite block_quote_re_bol. rewrite map_app.
    replace (at_bol (last (map Some A ++ map Some (gt :: sp)) None)) with false;
      [reflexivity|].
    symmetry. induction A as [|a A IH].
    + cbn [map app]. rewrite last_cons_default.
      apply at_bol_inline; [discriminate|exact Hsp].
    + cbn [map app]. rewrite last_cons_default.
      cbn [map app] in *.
      destruct A as [|a' A]; cbn [map app] in *.
      * rewrite last_cons_default in *. exact IH.
      * rewrite last_cons_default in *. exact IH.
  - intros X1 X2. now apply second_marker_safe.
  - apply Nat.le_0_l.
Qed.
